(** * Stickman keyframe timeline: a shallow embedding of [src/types.ts],
      [src/App.tsx] and the [getRot] helper of the Stickman component.

    Numbers.  A JavaScript [number] is modelled as an exact rational [Q]:
    additions, subtractions, products and quotients are the exact ones, so
    no rounding happens.  Equality of numbers is therefore [Qeq] ([==]), and
    poses computed by arithmetic are compared with [pose_equiv], which is
    [Qeq] on every axis of every joint.  Two JavaScript behaviours are not
    covered by [Q]: a remainder by [0] and a quotient by [0] (both [NaN] or
    an infinity in JavaScript).  The theorems below that fix the value of a
    computed pose have hypotheses under which neither occurs: the total
    duration is positive and the time is not negative, and
    [findSegment_in_range] shows that the segment then selected has a
    positive duration.  The lemmas that only pass an evaluation along
    ([tick_cases], [tick_playing]) fix no value.

    Objects.  A [Pose] is a JavaScript object used as a dictionary from joint
    names to rotations: a [gmap string JointRotation].  The deep copies made
    with [JSON.parse(JSON.stringify(_))] are the identity on values. *)

From Stdlib Require Import QArith Qround Lqa Lia.
From stdpp Require Import gmap strings list.

Local Open Scope Q_scope.

(** ** [src/types.ts] *)

Record JointRotation : Type := mkRot { x : Q; y : Q; z : Q }.

(** [Record<string, JointRotation>]: a dictionary mapping joint ids to
    their rotations. *)
Abbreviation Pose := (gmap string JointRotation).

Record Keyframe : Type := mkKeyframe {
  id : string;
  pose : Pose;
  duration : Q  (* Duration to reach this frame from the previous one (ms) *)
}.

(** The object literal of [INITIAL_POSE], in the order its keys are written;
    [Object.keys] enumerates string keys in that order. *)
Definition INITIAL_POSE_entries : list (string * JointRotation) :=
  [ ("torso"%string,     mkRot 0 0 0);
    ("head"%string,      mkRot 0 0 0);
    ("upperArmL"%string, mkRot 0 0 (-1#2));
    ("lowerArmL"%string, mkRot 0 0 0);
    ("upperArmR"%string, mkRot 0 0 (1#2));
    ("lowerArmR"%string, mkRot 0 0 0);
    ("upperLegL"%string, mkRot 0 0 (-1#5));
    ("lowerLegL"%string, mkRot 0 0 0);
    ("upperLegR"%string, mkRot 0 0 (1#5));
    ("lowerLegR"%string, mkRot 0 0 0) ].

Definition INITIAL_POSE : Pose :=
  list_to_map INITIAL_POSE_entries.

(** [Object.keys(INITIAL_POSE)] *)
Definition INITIAL_POSE_keys : list string := INITIAL_POSE_entries.*1.

(** ** Numbers *)

(** Rounding toward zero, as the quotient of JavaScript's [%] does. *)
Definition Qtruncate (q : Q) : Z :=
  if Qlt_le_dec q 0 then Qceiling q else Qfloor q.

(** [a % b] on numbers: [a - b * trunc (a / b)], whose sign is that of the
    dividend.  This is JavaScript's [%] for [b] different from [0] only:
    [a % 0] is [NaN] there, and [a] here. *)
Definition jsRem (a b : Q) : Q := a - b * inject_Z (Qtruncate (a / b)).

(** ** [AnimationRunner]: the evaluation of one frame, App.tsx lines 84-141 *)

(** [keyframes.reduce((acc, kf) => acc + kf.duration, 0)] *)
Definition totalDuration (keyframes : list Keyframe) : Q :=
  fold_left (fun acc kf => acc + duration kf) keyframes 0.

(** The [for] loop of lines 110-116, run on the keyframes from index [i] on.
    It returns [(startFrameIndex, accumulatedTime)].  When no keyframe
    satisfies the test the loop ends without [break]: [startFrameIndex]
    keeps its initial [0] and [accumulatedTime] has summed every duration. *)
Fixpoint findSegment (elapsed : Q) (rest : list Keyframe) (i : nat)
    (accumulatedTime : Q) : nat * Q :=
  match rest with
  | [] => (0%nat, accumulatedTime)
  | kf :: rest' =>
      if Qlt_le_dec elapsed (accumulatedTime + duration kf)
      then (i, accumulatedTime)
      else findSegment elapsed rest' (S i) (accumulatedTime + duration kf)
  end.

(** One axis of lines 134-136. *)
Definition lerp (a b alpha : Q) : Q := a + (b - a) * alpha.

(** Lines 130-137 for one [key] of [INITIAL_POSE], whose value there is
    [rest]: [pose[key] || INITIAL_POSE[key]] for both frames, then the three
    axes. *)
Definition lerpJoint (startPose endPose : Pose)
    (alpha : Q) (key : string) (rest : JointRotation) : JointRotation :=
  let startRot := default rest (startPose !! key) in
  let endRot := default rest (endPose !! key) in
  {| x := lerp (x startRot) (x endRot) alpha;
     y := lerp (y startRot) (y endRot) alpha;
     z := lerp (z startRot) (z endRot) alpha |}.

(** Lines 127-138: [newPose] starts as a copy of [INITIAL_POSE] and every key
    of [INITIAL_POSE] is then assigned, in the order of [Object.keys]. *)
Definition lerpPose (startPose endPose : Pose)
    (alpha : Q) : Pose :=
  fold_left
    (fun newPose '(key, rest) =>
       <[key := lerpJoint startPose endPose alpha key rest]> newPose)
    INITIAL_POSE_entries INITIAL_POSE.

(** Lines 106-138 at a wrapped time [elapsed].  [None] stands for the
    [TypeError] of reading [.duration] or [.pose] of [undefined], which is
    what [keyframes[i]] is outside the array.  The quotient of line 124 is
    JavaScript's for a start frame of non-zero duration only: by [0] it is
    [NaN] or an infinity there, and [0] here. *)
Definition poseAt (keyframes : list Keyframe) (elapsed : Q)
    : option Pose :=
  let '(startFrameIndex, accumulatedTime) :=
    findSegment elapsed keyframes 0 0 in
  let endFrameIndex := ((startFrameIndex + 1) mod length keyframes)%nat in
  startFrame ← keyframes !! startFrameIndex;
  endFrame ← keyframes !! endFrameIndex;
  let segmentTime := elapsed - accumulatedTime in
  let alpha := segmentTime / duration startFrame in
  Some (lerpPose (pose startFrame) (pose endFrame) alpha).

(** Lines 104-138: the pose shown [diff] milliseconds after the anchor. *)
Definition evaluate (keyframes : list Keyframe) (diff : Q)
    : option Pose :=
  let elapsed := jsRem diff (totalDuration keyframes) in
  poseAt keyframes elapsed.

(** ** The Stickman component: [getRot], Stickman.tsx *)

(** [getRotation]: the Euler triple handed to the renderer. *)
Definition getRotation (rot : JointRotation) : Q * Q * Q :=
  (x rot, y rot, z rot).

(** [getRot]: "Helper to safely get rotation or default to 0". *)
Definition getRot (pose : Pose) (id : string)
    : Q * Q * Q :=
  match pose !! id with
  | Some rot => getRotation rot
  | None => (0, 0, 0)
  end.

(** ** [App]: state and handlers, App.tsx lines 153-226 *)

(** The [useState] cells of [App].  [null] is [None]. *)
Record AppState : Type := mkApp {
  currentPose : Pose;
  selectedJoint : option string;
  keyframes : list Keyframe;
  isPlaying : bool;
  isRecording : bool;
  playbackPose : option Pose
}.

Definition setCurrentPose (p : Pose) (s : AppState)
    : AppState :=
  mkApp p (selectedJoint s) (keyframes s) (isPlaying s) (isRecording s)
        (playbackPose s).

Definition setSelectedJoint (j : option string) (s : AppState) : AppState :=
  mkApp (currentPose s) j (keyframes s) (isPlaying s) (isRecording s)
        (playbackPose s).

Definition setKeyframes (k : list Keyframe) (s : AppState) : AppState :=
  mkApp (currentPose s) (selectedJoint s) k (isPlaying s) (isRecording s)
        (playbackPose s).

Definition setIsPlaying (b : bool) (s : AppState) : AppState :=
  mkApp (currentPose s) (selectedJoint s) (keyframes s) b (isRecording s)
        (playbackPose s).

Definition setIsRecording (b : bool) (s : AppState) : AppState :=
  mkApp (currentPose s) (selectedJoint s) (keyframes s) (isPlaying s) b
        (playbackPose s).

Definition setPlaybackPose (p : option Pose)
    (s : AppState) : AppState :=
  mkApp (currentPose s) (selectedJoint s) (keyframes s) (isPlaying s)
        (isRecording s) p.

(** What a handler does besides updating the state. *)
Inductive Effect : Type :=
  | Alert (message : string).

(** Lines 176-183.  [uuid] is the result of [crypto.randomUUID()]. *)
Definition handleAddKeyframe (uuid : string) (s : AppState) : AppState :=
  let newKeyframe :=
    {| id := uuid; pose := currentPose s; duration := 1000 |} in
  setKeyframes (keyframes s ++ [newKeyframe]) s.

(** Lines 185-187. *)
Definition handleUpdateKeyframeDuration (id' : string) (duration' : Q)
    (s : AppState) : AppState :=
  setKeyframes
    ((fun kf =>
        if decide (id kf = id')
        then {| id := id kf; pose := pose kf; duration := duration' |}
        else kf) <$> keyframes s)
    s.

(** Lines 189-191. *)
Definition handleDeleteKeyframe (id' : string) (s : AppState) : AppState :=
  setKeyframes (filter (fun kf => id kf <> id') (keyframes s)) s.

(** Lines 193-200.  The tests read the [isPlaying] of the render the handler
    was created in, that is of [s]. *)
Definition handlePlayToggle (s : AppState) : AppState :=
  if (length (keyframes s) <? 1)%nat then s
  else
    let s1 := setIsPlaying (negb (isPlaying s)) s in
    if isPlaying s
    then setIsRecording false (setPlaybackPose None s1)
    else s1.

(** Lines 202-210. *)
Definition handleExportVideo (s : AppState) : AppState * list Effect :=
  if (length (keyframes s) <? 2)%nat
  then (s, [Alert "Need at least 2 keyframes to record."])
  else (setIsPlaying true (setIsRecording true s), []).

(** Lines 212-218. *)
Definition handleRecordingLoopEnd (s : AppState) : AppState :=
  setPlaybackPose None (setIsRecording false (setIsPlaying false s)).

(** Lines 220-223. *)
Definition handleLoadPose (p : Pose) (s : AppState)
    : AppState :=
  if isPlaying s then s else setCurrentPose p s.

(** The "Reset Joint" button, line 268; it is rendered only while a joint
    is selected. *)
Definition handleResetJoint (s : AppState) : AppState :=
  match selectedJoint s with
  | Some j => setCurrentPose (<[j := mkRot 0 0 0]> (currentPose s)) s
  | None => s
  end.

(** The "Clear All" button, line 357. *)
Definition handleClearAll (s : AppState) : AppState :=
  setIsPlaying false (setKeyframes [] s).

(** Line 225: [isPlaying && playbackPose ? playbackPose : currentPose]. *)
Definition renderedPose (s : AppState) : Pose :=
  match isPlaying s, playbackPose s with
  | true, Some p => p
  | _, _ => currentPose s
  end.

(** ** The [useFrame] callback of [AnimationRunner], lines 81-148 *)

(** The two [useRef] cells. *)
Record Refs : Type := mkRefs { startTimeRef : Q; pausedTimeRef : Q }.

(** The calls the callback makes on its two function props. *)
Inductive Callback : Type :=
  | onUpdatePose (p : Pose)
  | onLoopEnd.

(** [a === 0] on numbers *)
Definition isZero (a : Q) : bool := Qeq_bool a 0.

(** The anchor a tick at [now] works with (lines 91-93). *)
Definition anchored (now : Q) (r : Refs) : Refs :=
  if isZero (startTimeRef r)
  then mkRefs (now - pausedTimeRef r) (pausedTimeRef r)
  else r.

(** Lines 84-141, for the props of the render [s] and the clock reading
    [now] (milliseconds).  The result is the refs after the call and the
    calls made, in order; [None] is an uncaught [TypeError]. *)
Definition useFrame (s : AppState) (now : Q) (r : Refs)
    : option (Refs * list Callback) :=
  if negb (isPlaying s) || (length (keyframes s) <? 2)%nat then Some (r, [])
  else
    let total := totalDuration (keyframes s) in
    let r := anchored now r in
    let diff := now - startTimeRef r in
    if isRecording s && Qle_bool total diff
    then
      lastFrame ← keyframes s !! (length (keyframes s) - 1)%nat;
      Some (r, [onUpdatePose (pose lastFrame); onLoopEnd])
    else
      newPose ← evaluate (keyframes s) diff;
      Some (r, [onUpdatePose newPose]).

(** The [useEffect] of lines 144-148, with dependency [isPlaying]: it runs
    after a render in which [isPlaying] differs from the previous render. *)
Definition resetTimer (before after : AppState) (r : Refs) : Refs :=
  if Bool.eqb (isPlaying before) (isPlaying after) then r
  else if negb (isPlaying after) then mkRefs 0 (pausedTimeRef r)
  else r.

(** The application and the runner's refs between two frames. *)
Record World : Type := mkWorld { app : AppState; refs : Refs }.

(** Lines 250-251: [onUpdatePose={setPlaybackPose}] and
    [onLoopEnd={handleRecordingLoopEnd}]. *)
Definition callback (s : AppState) (c : Callback) : AppState :=
  match c with
  | onUpdatePose p => setPlaybackPose (Some p) s
  | onLoopEnd => handleRecordingLoopEnd s
  end.

(** One rendering tick at clock reading [now]: the callback runs, the state
    updates it requested are applied in the order they were made, the
    component renders again and its effect runs.  The second component is
    the list of calls the callback made. *)
Definition tick (now : Q) (w : World) : option (World * list Callback) :=
  '(r, calls) ← useFrame (app w) now (refs w);
  let s := fold_left callback calls (app w) in
  Some (mkWorld s (resetTimer (app w) s r), calls).

(** A user action between two frames: the handler runs on the current
    render, the component renders again and the effect runs. *)
Definition act (handler : AppState -> AppState) (w : World) : World :=
  let s := handler (app w) in
  mkWorld s (resetTimer (app w) s (refs w)).

(** ** The controls of the toolbar and of the frames strip *)

(** [ClickJoint] is a click on a joint sphere of the figure (line 240,
    [onSelectJoint={setSelectedJoint}]); [ClickFrame i] is a click on the
    [i]-th frame of the strip; [uuid] is what [crypto.randomUUID()] returns
    for the new keyframe. *)
Inductive UIEvent : Type :=
  | ClickJoint (joint : string)
  | ClickResetJoint
  | ClickPlay
  | ClickAddKeyframe (uuid : string)
  | ClickExportVideo
  | ClickClearAll
  | ChangeDuration (id' : string) (value : Q)
  | ClickDelete (id' : string)
  | ClickFrame (i : nat).

(** The [disabled] attribute of the control an event comes from
    (lines 327, 341, 349, 397, 403); a disabled control fires no event.  The
    reset button is absent while no joint is selected (line 266), and there
    is no [i]-th frame to click beyond the end of the strip. *)
Definition disabled (s : AppState) (e : UIEvent) : bool :=
  match e with
  | ClickJoint _ => false
  | ClickResetJoint => negb (bool_decide (is_Some (selectedJoint s)))
  | ClickPlay => (length (keyframes s) <? 1)%nat || isRecording s
  | ClickAddKeyframe _ => isPlaying s
  | ClickExportVideo => (length (keyframes s) <? 2)%nat || isPlaying s
  | ClickClearAll => false
  | ChangeDuration _ _ => isPlaying s
  | ClickDelete _ => isPlaying s
  | ClickFrame i => negb (bool_decide (is_Some (keyframes s !! i)))
  end.

(** The handler wired to each control. *)
Definition handle (e : UIEvent) (s : AppState) : AppState :=
  match e with
  | ClickJoint joint => setSelectedJoint (Some joint) s
  | ClickResetJoint => handleResetJoint s
  | ClickPlay => handlePlayToggle s
  | ClickAddKeyframe uuid => handleAddKeyframe uuid s
  | ClickExportVideo => fst (handleExportVideo s)
  | ClickClearAll => handleClearAll s
  | ChangeDuration id' value => handleUpdateKeyframeDuration id' value s
  | ClickDelete id' => handleDeleteKeyframe id' s
  | ClickFrame i =>
      match keyframes s !! i with
      | Some kf => handleLoadPose (pose kf) s
      | None => s
      end
  end.

Definition dispatch (e : UIEvent) (s : AppState) : AppState :=
  if disabled s e then s else handle e s.

(** The events that edit the timeline. *)
Definition isStoreMutation (e : UIEvent) : bool :=
  match e with
  | ClickAddKeyframe _ | ChangeDuration _ _ | ClickDelete _ => true
  | _ => false
  end.

(** The state of [App] at its first render (lines 154-161) and the refs of
    the runner (lines 81-82). *)
Definition initialWorld : World :=
  mkWorld (mkApp INITIAL_POSE None [] false false None) (mkRefs 0 0).

(** A sequence of user actions with no frame in between. *)
Definition actions (events : list UIEvent) (w : World) : World :=
  fold_left (fun w e => act (dispatch e) w) events w.

(** A run of rendering ticks at the given clock readings, with the calls
    made along the way. *)
Fixpoint run (nows : list Q) (w : World) : option (World * list Callback) :=
  match nows with
  | [] => Some (w, [])
  | now :: later =>
      '(w1, calls1) ← tick now w;
      '(w2, calls2) ← run later w1;
      Some (w2, calls1 ++ calls2)
  end.

(** ** Equality of computed poses *)

Definition rot_equiv (r1 r2 : JointRotation) : Prop :=
  x r1 == x r2 /\ y r1 == y r2 /\ z r1 == z r2.

Definition pose_equiv (p1 p2 : Pose) : Prop :=
  forall key, option_Forall2 rot_equiv (p1 !! key) (p2 !! key).

(** A pose as the interpolation reads it: the joints of [INITIAL_POSE], each
    with the pose's rotation when it has one and the rest rotation
    otherwise. *)
Definition resolvePose (p : Pose) : Pose :=
  map_imap (fun key rest => Some (default rest (p !! key))) INITIAL_POSE.

(** [cumulative keyframes i]: the durations of the first [i] keyframes,
    summed as the loop sums them. *)
Definition cumulative (keyframes : list Keyframe) (i : nat) : Q :=
  totalDuration (take i keyframes).

(** What the loop has found when it stops. *)
Inductive SegmentFound (keyframes : list Keyframe) (elapsed : Q) (from : nat)
    : nat * Q -> Prop :=
  | segment_break (i : nat) (kf : Keyframe) :
      keyframes !! i = Some kf -> (from <= i)%nat ->
      elapsed < cumulative keyframes (S i) ->
      (forall j, (from <= j < i)%nat ->
                 cumulative keyframes (S j) <= elapsed) ->
      SegmentFound keyframes elapsed from (i, cumulative keyframes i)
  | segment_fall_through :
      (forall j, (from <= j < length keyframes)%nat ->
                 cumulative keyframes (S j) <= elapsed) ->
      SegmentFound keyframes elapsed from (0%nat, totalDuration keyframes).

(** ** Sample data *)

(** The rest pose with the left shoulder reset to the zero rotation. *)
Definition armReset : Pose :=
  <["upperArmL"%string := mkRot 0 0 0]> INITIAL_POSE.

Definition kfA : Keyframe := mkKeyframe "a" INITIAL_POSE 1000.
Definition kfB : Keyframe := mkKeyframe "b" armReset 500.

(** Two keyframes, playback running, no recording. *)
Definition playingState : AppState :=
  mkApp INITIAL_POSE None [kfA; kfB] true false None.

(** One keyframe, nothing running. *)
Definition idleOneFrame : AppState :=
  mkApp INITIAL_POSE None [kfA] false false None.

(** A keyframe whose pose lacks a joint, alone in an idle timeline. *)
Definition kfSparse : Keyframe :=
  mkKeyframe "s" (delete "upperArmL"%string INITIAL_POSE) 1000.

Definition idleSparse : AppState :=
  mkApp INITIAL_POSE None [kfSparse] false false None.

(** A session at the controls: the rest pose is stored as a first keyframe,
    the left shoulder is selected and reset, that pose is stored as a second
    keyframe whose duration is set to 500; then the first frame is clicked,
    which loads its pose for editing. *)
Definition authoring : list UIEvent :=
  [ ClickAddKeyframe "a"; ClickJoint "upperArmL"; ClickResetJoint;
    ClickAddKeyframe "b"; ChangeDuration "b" 500; ClickFrame 0 ].

(** Two keyframes, nothing running; the pose being edited is the pose of
    the first keyframe. *)
Definition idleTwoFrames : AppState :=
  mkApp INITIAL_POSE (Some "upperArmL"%string) [kfA; kfB] false false None.

(** The Export Video button pressed after [authoring], before any frame. *)
Definition recordingStart : World :=
  actions (authoring ++ [ClickExportVideo]) initialWorld.

(** The recording at clock readings 100 (the anchor), 500, 1100 and 1599. *)
Definition ticksBeforeEnd : option (World * list Callback) :=
  run [100; 500; 1100; 1599] recordingStart.

Definition worldBeforeEnd : World :=
  default recordingStart (fst <$> ticksBeforeEnd).

Definition callsBeforeEnd : list Callback :=
  default [] (snd <$> ticksBeforeEnd).

Definition isLoopEnd (c : Callback) : bool :=
  match c with onLoopEnd => true | onUpdatePose _ => false end.

(** ** The joint sliders, App.tsx lines 163-174 and 279-296 *)

(** ['x' | 'y' | 'z'] *)
Inductive Axis : Type := AxisX | AxisY | AxisZ.

(** [{ ...rot, [axis]: value }] *)
Definition setAxis (rot : JointRotation) (axis : Axis) (value : Q)
    : JointRotation :=
  match axis with
  | AxisX => mkRot value (y rot) (z rot)
  | AxisY => mkRot (x rot) value (z rot)
  | AxisZ => mkRot (x rot) (y rot) value
  end.

(** Lines 163-174.  When the pose has no entry for the selected joint, the
    spread of [undefined] builds an object holding the one axis only, which
    is not a [JointRotation]: that result is outside this model and is
    [None] here. *)
Definition handleUpdateJoint (axis : Axis) (value : Q) (s : AppState)
    : option AppState :=
  match selectedJoint s with
  | None => Some s
  | Some j =>
      if isPlaying s then Some s
      else
        rot ← currentPose s !! j;
        Some (setCurrentPose (<[j := setAxis rot axis value]> (currentPose s))
                             s)
  end.

(** ** Sessions: user actions and rendering ticks in any order *)

Inductive Step : Type :=
  | UI (e : UIEvent)
  | Slide (axis : Axis) (value : Q)
  | Frame (now : Q).

(** One step of a session.  A slider is disabled while [isPlaying] is set and
    absent while no joint is selected; [handleUpdateJoint] returns at once in
    both cases, so the handler alone gives the step. *)
Definition step (st : Step) (w : World) : option World :=
  match st with
  | UI e => Some (act (dispatch e) w)
  | Slide axis value =>
      s ← handleUpdateJoint axis value (app w);
      Some (mkWorld s (resetTimer (app w) s (refs w)))
  | Frame now => fst <$> tick now w
  end.

(** What the surroundings offer: the joint spheres of the figure carry the
    ten ids of [INITIAL_POSE] (Stickman.tsx), and [crypto.randomUUID()]
    returns an id no keyframe has. *)
Definition offered (w : World) (st : Step) : bool :=
  match st with
  | UI (ClickJoint joint) => bool_decide (joint ∈ INITIAL_POSE_keys)
  | UI (ClickAddKeyframe uuid) =>
      bool_decide (uuid ∉ id <$> keyframes (app w))
  | _ => true
  end.

Fixpoint steps (l : list Step) (w : World) : option World :=
  match l with
  | [] => Some w
  | st :: later =>
      if offered w st then w1 ← step st w; steps later w1 else None
  end.

(** The worlds a session can be in. *)
Inductive Reachable : World -> Prop :=
  | reach_init : Reachable initialWorld
  | reach_step (st : Step) (w w' : World) :
      Reachable w -> offered w st = true -> step st w = Some w' ->
      Reachable w'.

(** A pose that defines the joints of [INITIAL_POSE] and no other. *)
Definition canonicalPose (p : Pose) : Prop := dom p = dom INITIAL_POSE.

(** What every step of a session keeps. *)
Record Invariant (w : World) : Prop := mkInvariant {
  inv_current : canonicalPose (currentPose (app w));
  inv_frames :
    Forall (fun kf => canonicalPose (pose kf)) (keyframes (app w));
  inv_playback :
    forall p, playbackPose (app w) = Some p -> canonicalPose p;
  inv_selected :
    forall j, selectedJoint (app w) = Some j -> j ∈ INITIAL_POSE_keys;
  inv_ids : NoDup (id <$> keyframes (app w));
  inv_playing :
    isPlaying (app w) = true -> (1 <= length (keyframes (app w)))%nat;
  inv_recording :
    isPlaying (app w) = true -> isRecording (app w) = true ->
    (2 <= length (keyframes (app w)))%nat;
  inv_anchor : isPlaying (app w) = false -> startTimeRef (refs w) = 0;
  inv_paused : pausedTimeRef (refs w) = 0
}.

(** [m] lies between [a] and [b], whichever is the larger. *)
Definition between (a b m : Q) : Prop :=
  (a <= m /\ m <= b) \/ (b <= m /\ m <= a).

Definition rot_between (a b m : JointRotation) : Prop :=
  between (x a) (x b) (x m) /\ between (y a) (y b) (y m)
  /\ between (z a) (z b) (z m).

(** A pose read at a joint of [INITIAL_POSE] the way the interpolation reads
    it. *)
Definition rotationOf (p : Pose) (key : string) (rest : JointRotation)
    : JointRotation :=
  default rest (p !! key).

(** The session of [authoring], the Export Video button, then the frames of
    [ticksBeforeEnd]. *)
Definition recordingSession : list Step :=
  (UI <$> authoring ++ [ClickExportVideo])
  ++ (Frame <$> [100; 500; 1100; 1599]).

(** The steps that edit the pose on stage and nothing else. *)
Definition isPoseEdit (st : Step) : bool :=
  match st with
  | UI (ClickJoint _) | UI ClickResetJoint | Slide _ _ => true
  | _ => false
  end.

(** * Properties *)

(** ** Interpolated poses *)

Section FoldInsert.
Context {V : Type} (f : string -> V -> V).

(** Assigning [f key v] for every entry [(key, v)] of a duplicate-free
    list of entries, in order, onto a map [m]. *)
Lemma fold_insert_lookup (l : list (string * V)) (m : gmap string V)
    (key : string) :
  NoDup l.*1 ->
  fold_left (fun acc '(k, v) => <[k := f k v]> acc) l m !! key
  = match (list_to_map l : gmap string V) !! key with
    | Some v => Some (f key v)
    | None => m !! key
    end.
Proof.
  revert m. induction l as [|[k v] l IH]; intros m Hnd; simpl.
  - by rewrite lookup_empty.
  - apply NoDup_cons in Hnd as [Hk Hnd].
    rewrite IH by done.
    destruct (decide (k = key)) as [->|Hne].
    + rewrite lookup_insert_eq.
      rewrite (not_elem_of_list_to_map_1 _ key Hk).
      by rewrite lookup_insert_eq.
    + by rewrite !(lookup_insert_ne _ k key) by done.
Qed.
End FoldInsert.

Lemma INITIAL_POSE_keys_NoDup : NoDup INITIAL_POSE_keys.
Proof. apply (bool_decide_unpack _). vm_compute. exact I. Qed.

Lemma lerpPose_lookup (startPose endPose : Pose)
    (alpha : Q) (key : string) :
  lerpPose startPose endPose alpha !! key
  = lerpJoint startPose endPose alpha key <$> INITIAL_POSE !! key.
Proof.
  unfold lerpPose.
  rewrite (fold_insert_lookup (lerpJoint startPose endPose alpha))
    by apply INITIAL_POSE_keys_NoDup.
  fold INITIAL_POSE. by destruct (INITIAL_POSE !! key).
Qed.

Lemma lerpPose_dom (startPose endPose : Pose)
    (alpha : Q) :
  dom (lerpPose startPose endPose alpha) = dom INITIAL_POSE.
Proof.
  apply set_eq. intros key. rewrite !elem_of_dom, lerpPose_lookup.
  by rewrite fmap_is_Some.
Qed.

Lemma INITIAL_POSE_dom :
  dom INITIAL_POSE = list_to_set INITIAL_POSE_keys.
Proof. unfold INITIAL_POSE, INITIAL_POSE_keys. apply dom_list_to_map_L. Qed.

Lemma resolvePose_lookup (p : Pose) (key : string) :
  resolvePose p !! key
  = (fun rest => default rest (p !! key)) <$> INITIAL_POSE !! key.
Proof.
  unfold resolvePose. rewrite map_lookup_imap.
  by destruct (INITIAL_POSE !! key).
Qed.

(** C9: whatever the start and end keyframes and the factor [alpha], the
    pose built by one evaluation has exactly the ten joint keys of
    [INITIAL_POSE]: each of them is present, and no other key is, so extra
    keys of a keyframe's pose do not reach the result. *)
Theorem lerpPose_canonical_keys (startFrame endFrame : Keyframe) (alpha : Q) :
  let newPose := lerpPose (pose startFrame) (pose endFrame) alpha in
  INITIAL_POSE_keys
  = ["torso"; "head"; "upperArmL"; "lowerArmL"; "upperArmR"; "lowerArmR";
     "upperLegL"; "lowerLegL"; "upperLegR"; "lowerLegR"]%string
  /\ dom newPose = list_to_set INITIAL_POSE_keys
  /\ size newPose = 10%nat
  /\ forall key, is_Some (newPose !! key) <-> key ∈ INITIAL_POSE_keys.
Proof.
  intros newPose.
  assert (Hdom : dom newPose = list_to_set INITIAL_POSE_keys)
    by (unfold newPose; rewrite lerpPose_dom; apply INITIAL_POSE_dom).
  split; [reflexivity|]. split; [exact Hdom|]. split.
  - rewrite <- size_dom, Hdom.
    rewrite size_list_to_set by apply INITIAL_POSE_keys_NoDup. reflexivity.
  - intros key. rewrite <- elem_of_dom, Hdom. apply elem_of_list_to_set.
Qed.

(** ** The keyframe store *)

Lemma setKeyframes_same (s : AppState) : setKeyframes (keyframes s) s = s.
Proof. by destruct s. Qed.

(** C3, the claim as stated fails: the three handlers carry no test of the
    playback flags, so each of them changes the timeline of a state in which
    playback is running. *)
Lemma handlers_mutate_while_playing :
  isPlaying playingState = true
  /\ keyframes (handleAddKeyframe "c" playingState) <> keyframes playingState
  /\ keyframes (handleUpdateKeyframeDuration "a" 250 playingState)
     <> keyframes playingState
  /\ keyframes (handleDeleteKeyframe "a" playingState)
     <> keyframes playingState.
Proof.
  split; [reflexivity|]. repeat split.
  - intros H. apply (f_equal length) in H. discriminate H.
  - intros H. apply (f_equal (fmap duration)) in H. discriminate H.
  - intros H. apply (f_equal length) in H. discriminate H.
Qed.

(** C3, amended: the protection is the [disabled] attribute of the controls.
    While [isPlaying] is set, the Add Keyframe button, the duration inputs
    and the delete buttons are disabled, so an edit arriving from them
    leaves the whole state, and with it the timeline, unchanged. *)
Theorem store_controls_disabled_while_playing (s : AppState) (e : UIEvent) :
  isPlaying s = true -> isStoreMutation e = true ->
  disabled s e = true /\ dispatch e s = s
  /\ keyframes (dispatch e s) = keyframes s.
Proof.
  intros Hplay He. unfold dispatch.
  destruct e; try discriminate He; simpl; rewrite Hplay; done.
Qed.

Lemma store_controls_disabled_while_playing_witness :
  dispatch (ClickDelete "a") playingState = playingState.
Proof.
  exact (proj1 (proj2 (store_controls_disabled_while_playing
                         playingState (ClickDelete "a") eq_refl eq_refl))).
Defined.

Lemma filter_keeps_all {A} (P : A -> Prop) `{!forall a, Decision (P a)}
    (l : list A) :
  Forall P l -> filter P l = l.
Proof.
  induction 1 as [|a l Ha _ IH]; [done|].
  by rewrite filter_cons_True, IH.
Qed.

Lemma update_absent (id' : string) (ms : Q) (l : list Keyframe) :
  id' ∉ id <$> l ->
  (fun kf => if decide (id kf = id')
             then {| id := id kf; pose := pose kf; duration := ms |}
             else kf) <$> l = l.
Proof.
  induction l as [|kf l IH]; [done|]. intros Habs.
  rewrite fmap_cons in Habs. apply not_elem_of_cons in Habs as [Hne Hl].
  rewrite fmap_cons, IH by done.
  destruct (decide (id kf = id')); [congruence|done].
Qed.

Lemma others_kept (id' : string) (l : list Keyframe) :
  id' ∉ id <$> l -> Forall (fun kf => id kf <> id') l.
Proof.
  intros Hl. apply Forall_forall. intros kf Hkf Heq. apply Hl.
  subst id'. by apply list_elem_of_fmap_2.
Qed.

(** C7: [updateDuration] replaces the duration of the keyframe with the
    given id and nothing else (same length, same ids, same poses, every
    other keyframe untouched at its index) and changes nothing when no
    keyframe has the id; [remove] deletes the keyframe with the given id and
    keeps the others in their order.  Ids are unique in a timeline. *)
Theorem store_update_and_remove (s : AppState) (id' : string) (ms : Q) :
  NoDup (id <$> keyframes s) ->
  let updated := handleUpdateKeyframeDuration id' ms s in
  let removed := handleDeleteKeyframe id' s in
  length (keyframes updated) = length (keyframes s)
  /\ id <$> keyframes updated = id <$> keyframes s
  /\ pose <$> keyframes updated = pose <$> keyframes s
  /\ (forall i kf, keyframes s !! i = Some kf -> id kf <> id' ->
        keyframes updated !! i = Some kf)
  /\ (forall i kf, keyframes s !! i = Some kf -> id kf = id' ->
        keyframes updated !! i
        = Some {| id := id kf; pose := pose kf; duration := ms |})
  /\ (id' ∉ id <$> keyframes s -> updated = s)
  /\ (forall before kf after,
        keyframes s = before ++ kf :: after -> id kf = id' ->
        keyframes removed = before ++ after)
  /\ (id' ∉ id <$> keyframes s -> removed = s)
  /\ keyframes removed `sublist_of` keyframes s
  /\ (forall kf,
        kf ∈ keyframes removed <-> kf ∈ keyframes s /\ id kf <> id').
Proof.
  intros Hnd updated removed. unfold updated, removed.
  unfold handleUpdateKeyframeDuration, handleDeleteKeyframe. simpl.
  split_and!.
  - apply length_fmap.
  - rewrite <- list_fmap_compose. apply list_fmap_ext.
    intros _ kf _. simpl. by destruct (decide (id kf = id')).
  - rewrite <- list_fmap_compose. apply list_fmap_ext.
    intros _ kf _. simpl. by destruct (decide (id kf = id')).
  - intros i kf Hi Hne. rewrite list_lookup_fmap, Hi. simpl.
    by destruct (decide (id kf = id')).
  - intros i kf Hi Heq. rewrite list_lookup_fmap, Hi. simpl.
    by destruct (decide (id kf = id')).
  - intros Habs. rewrite update_absent by done. apply setKeyframes_same.
  - intros before kf after Hsplit Heq. rewrite Hsplit in Hnd |- *.
    rewrite fmap_app, fmap_cons in Hnd.
    apply NoDup_app in Hnd as (_ & Hb & Ha).
    apply NoDup_cons in Ha as [Ha _].
    rewrite filter_app, filter_cons_False by (intros Hne; by apply Hne).
    rewrite !filter_keeps_all; [done| |]; apply others_kept.
    + by rewrite <- Heq.
    + intros Hin. apply (Hb _ Hin). rewrite Heq. left.
  - intros Habs. rewrite filter_keeps_all by by apply others_kept.
    apply setKeyframes_same.
  - apply sublist_filter.
  - intros kf. rewrite list_elem_of_filter. tauto.
Qed.

Lemma store_update_and_remove_witness :
  keyframes (handleUpdateKeyframeDuration "a" 250 playingState)
    = [mkKeyframe "a" INITIAL_POSE 250; kfB]
  /\ keyframes (handleDeleteKeyframe "a" playingState) = [kfB].
Proof.
  assert (Hnd : NoDup (id <$> keyframes playingState)).
  { apply (bool_decide_unpack _). vm_compute. exact I. }
  pose proof (store_update_and_remove playingState "a" 250 Hnd)
    as (_ & _ & _ & Hother & Hsame & _ & Hrem & _).
  split.
  - apply list_eq. intros [|[|i]].
    + exact (Hsame 0%nat kfA eq_refl eq_refl).
    + refine (Hother 1%nat kfB eq_refl _). discriminate.
    + reflexivity.
  - exact (Hrem [] kfA [kfB] eq_refl eq_refl).
Defined.

(** ** Starting and stopping *)

(** C6: with fewer than two keyframes, starting a recording is refused, the
    refusal is signalled (the alert "Need at least 2 keyframes to record.")
    and the state returned is the state given: playing flag, recording flag
    and timeline are as before; with two keyframes or more both flags are
    set and nothing else changes. *)
Theorem handleExportVideo_guard (s : AppState) :
  ((length (keyframes s) < 2)%nat ->
     handleExportVideo s = (s, [Alert "Need at least 2 keyframes to record."]))
  /\ ((2 <= length (keyframes s))%nat ->
      exists s', handleExportVideo s = (s', [])
        /\ isRecording s' = true /\ isPlaying s' = true
        /\ keyframes s' = keyframes s /\ currentPose s' = currentPose s
        /\ selectedJoint s' = selectedJoint s
        /\ playbackPose s' = playbackPose s).
Proof.
  unfold handleExportVideo. split; intros Hlen.
  - apply Nat.ltb_lt in Hlen. by rewrite Hlen.
  - apply Nat.ltb_ge in Hlen. rewrite Hlen. eexists. split; [done|].
    by repeat split.
Qed.

Lemma handleExportVideo_guard_witness :
  handleExportVideo idleOneFrame
    = (idleOneFrame, [Alert "Need at least 2 keyframes to record."])
  /\ isRecording (handleExportVideo idleTwoFrames).1 = true
  /\ isPlaying (handleExportVideo idleTwoFrames).1 = true.
Proof.
  split.
  - apply (proj1 (handleExportVideo_guard idleOneFrame)). simpl. lia.
  - destruct (proj2 (handleExportVideo_guard idleTwoFrames))
      as (s' & Hs' & Hrec & Hplay & _); [simpl; lia|].
    rewrite Hs'. split; [exact Hrec | exact Hplay].
Defined.

Lemma resetTimer_same (s : AppState) (r : Refs) : resetTimer s s r = r.
Proof. unfold resetTimer. by rewrite Bool.eqb_reflx. Qed.

(** A tick that finds playback off, or fewer than two keyframes, returns at
    line 85. *)
Lemma tick_returns_early (now : Q) (w : World) :
  isPlaying (app w) = false \/ (length (keyframes (app w)) < 2)%nat ->
  tick now w = Some (w, []).
Proof.
  intros H. unfold tick, useFrame.
  assert (negb (isPlaying (app w))
          || (length (keyframes (app w)) <? 2)%nat = true) as ->.
  { destruct H as [->|H]; [done|]. apply Nat.ltb_lt in H. rewrite H.
    apply orb_true_r. }
  simpl. rewrite resetTimer_same. by destruct w.
Qed.

Lemma run_returns_early (nows : list Q) (w : World) :
  isPlaying (app w) = false \/ (length (keyframes (app w)) < 2)%nat ->
  run nows w = Some (w, []).
Proof.
  intros H. induction nows as [|now later IH]; [done|].
  simpl. rewrite tick_returns_early by done. simpl. by rewrite IH.
Qed.

(** C8: the play toggle starts playback of a single keyframe, and while
    playback runs with fewer than two keyframes every tick returns at once:
    no call to [onUpdatePose] or [onLoopEnd], refs and state (so the
    rendered pose and the time anchor) as they were. *)
Theorem tick_with_one_keyframe (nows : list Q) (now : Q) (w : World) :
  isPlaying (app w) = true -> (length (keyframes (app w)) < 2)%nat ->
  tick now w = Some (w, [])
  /\ run nows w = Some (w, [])
  /\ (forall s, length (keyframes s) = 1%nat -> isPlaying s = false ->
        isPlaying (handlePlayToggle s) = true
        /\ keyframes (handlePlayToggle s) = keyframes s).
Proof.
  intros _ Hlen. split_and!.
  - apply tick_returns_early. by right.
  - apply run_returns_early. by right.
  - intros s Hone Hidle. unfold handlePlayToggle. by rewrite Hone, Hidle.
Qed.

Lemma tick_with_one_keyframe_witness :
  let w := act handlePlayToggle (mkWorld idleOneFrame (mkRefs 0 0)) in
  isPlaying (app w) = true /\ tick 16 w = Some (w, [])
  /\ run [16; 33; 50] w = Some (w, []).
Proof.
  intros w. split; [reflexivity|].
  pose proof (tick_with_one_keyframe [16; 33; 50] 16 w eq_refl) as H.
  destruct H as (H1 & H2 & _); [simpl; lia|]. split; [exact H1 | exact H2].
Defined.



(** ** The end of a recorded loop *)

(** The tick that finds a recording at or past the total duration calls
    [onUpdatePose] with the last keyframe's pose, then [onLoopEnd] once.
    [handleRecordingLoopEnd] then clears both flags and sets the playback
    pose to [null], so what is rendered from then on is the pose being
    edited. *)
Lemma tick_recording_loop_end (now : Q) (w : World) (lastFrame : Keyframe) :
  isPlaying (app w) = true -> isRecording (app w) = true ->
  (2 <= length (keyframes (app w)))%nat ->
  last (keyframes (app w)) = Some lastFrame ->
  totalDuration (keyframes (app w))
    <= now - startTimeRef (anchored now (refs w)) ->
  exists w',
    tick now w = Some (w', [onUpdatePose (pose lastFrame); onLoopEnd])
    /\ isPlaying (app w') = false /\ isRecording (app w') = false
    /\ playbackPose (app w') = None
    /\ renderedPose (app w') = currentPose (app w)
    /\ startTimeRef (refs w') = 0.
Proof.
  intros Hplay Hrec Hlen Hlast Hpast. unfold tick, useFrame.
  apply Nat.ltb_ge in Hlen. rewrite Hplay, Hlen, Hrec. simpl.
  apply Qle_bool_iff in Hpast. rewrite Hpast. simpl.
  rewrite last_lookup in Hlast.
  replace (length (keyframes (app w)) - 1)%nat
    with (Nat.pred (length (keyframes (app w)))) by lia.
  rewrite Hlast. simpl. eexists. split; [reflexivity|].
  unfold resetTimer. simpl. by rewrite Hplay.
Qed.

(** C2, the code at a recording of [kfA; kfB] (durations 1000 and 500)
    started while the edited pose is that of the first keyframe, a state the
    controls lead to from the first render.  The ticks before the end call
    [onUpdatePose] only; the tick 1500 ms after the anchor calls
    [onUpdatePose] with the last keyframe's pose and [onLoopEnd] once, and
    both flags are cleared; but the state after that tick is the idle state
    again, and the pose it renders is the edited pose, not the pose of the
    last keyframe. *)
Theorem recording_loop_end_renders_edited_pose :
  actions authoring initialWorld = mkWorld idleTwoFrames (mkRefs 0 0)
  /\ app recordingStart
     = setIsPlaying true (setIsRecording true idleTwoFrames)
  /\ ticksBeforeEnd = Some (worldBeforeEnd, callsBeforeEnd)
  /\ existsb isLoopEnd callsBeforeEnd = false
  /\ isPlaying (app worldBeforeEnd) = true
  /\ isRecording (app worldBeforeEnd) = true
  /\ startTimeRef (refs worldBeforeEnd) = 100
  /\ tick 1600 worldBeforeEnd
     = Some (mkWorld idleTwoFrames (mkRefs 0 0),
             [onUpdatePose (pose kfB); onLoopEnd])
  /\ last (keyframes idleTwoFrames) = Some kfB
  /\ renderedPose idleTwoFrames = currentPose idleTwoFrames
  /\ renderedPose idleTwoFrames <> pose kfB.
Proof.
  split_and!;
    try (lazymatch goal with
         | |- _ = ?rhs => vm_cast_no_check (@eq_refl _ rhs)
         end).
  intros H. apply (f_equal (fun p => p !! "upperArmL"%string)) in H.
  vm_compute in H. discriminate H.
Qed.

(** ** The remainder *)

Lemma Qfloor_unique (q : Q) (n : Z) :
  inject_Z n <= q -> q < inject_Z (n + 1) -> Qfloor q = n.
Proof.
  intros Hlo Hhi.
  pose proof (Qfloor_le q) as Hfl. pose proof (Qlt_floor q) as Hfu.
  assert (H1 : (n < Qfloor q + 1)%Z)
    by (rewrite Zlt_Qlt; eapply Qle_lt_trans; eassumption).
  assert (H2 : (Qfloor q < n + 1)%Z)
    by (rewrite Zlt_Qlt; eapply Qle_lt_trans; eassumption).
  lia.
Qed.

Lemma Qfloor_add_Z (q : Q) (k : Z) :
  Qfloor (q + inject_Z k) = (Qfloor q + k)%Z.
Proof.
  pose proof (Qfloor_le q) as Hfl. pose proof (Qlt_floor q) as Hfu.
  apply Qfloor_unique.
  - rewrite inject_Z_plus. lra.
  - rewrite inject_Z_plus in Hfu |- *. rewrite !inject_Z_plus. simpl. lra.
Qed.

Lemma Qtruncate_nonneg (q : Q) : 0 <= q -> Qtruncate q = Qfloor q.
Proof.
  intros Hq. unfold Qtruncate. destruct (Qlt_le_dec q 0); [lra|done].
Qed.

Lemma Qdiv_nonneg (t T : Q) : 0 <= t -> 0 < T -> 0 <= t / T.
Proof. intros Ht HT. apply Qle_shift_div_l; [done|lra]. Qed.

(** For a dividend [t >= 0] and a divisor [T > 0], [t % T] is [t] minus the
    whole number of periods below it, and lies in [[0, T)]. *)
Lemma jsRem_periods (t T : Q) :
  0 <= t -> 0 < T ->
  (0 <= Qfloor (t / T))%Z
  /\ t == inject_Z (Qfloor (t / T)) * T + jsRem t T
  /\ 0 <= jsRem t T /\ jsRem t T < T.
Proof.
  intros Ht HT. pose proof (Qdiv_nonneg t T Ht HT) as Hq.
  unfold jsRem. rewrite Qtruncate_nonneg by done.
  pose proof (Qfloor_le (t / T)) as Hfl.
  pose proof (Qlt_floor (t / T)) as Hfu. rewrite inject_Z_plus in Hfu.
  assert (Hx : t / T * T == t) by (field; lra).
  set (q := inject_Z (Qfloor (t / T))) in *.
  assert (Hlo : q * T <= t / T * T) by (apply Qmult_le_compat_r; lra).
  assert (Hhi : t / T * T < (q + inject_Z 1) * T)
    by (apply Qmult_lt_compat_r; lra).
  rewrite Hx in Hlo, Hhi.
  assert (Hexp : (q + inject_Z 1) * T == q * T + T) by (simpl; ring).
  rewrite Hexp in Hhi.
  split_and!.
  - change 0%Z with (Qfloor 0). by apply Qfloor_resp_le.
  - ring.
  - lra.
  - lra.
Qed.

Lemma jsRem_add_periods (t T : Q) (k : Z) :
  0 <= t -> 0 < T -> (0 <= k)%Z ->
  jsRem (t + inject_Z k * T) T == jsRem t T.
Proof.
  intros Ht HT Hk.
  assert (HkQ : 0 <= inject_Z k)
    by (change 0 with (inject_Z 0); by rewrite <- Zle_Qle).
  assert (Ht' : 0 <= t + inject_Z k * T).
  { assert (0 <= inject_Z k * T) by (apply Qmult_le_0_compat; lra). lra. }
  unfold jsRem.
  rewrite !Qtruncate_nonneg by (by apply Qdiv_nonneg).
  assert (Hdiv : (t + inject_Z k * T) / T == t / T + inject_Z k)
    by (field; lra).
  rewrite Hdiv, Qfloor_add_Z, inject_Z_plus. ring.
Qed.

(** ** The segment search *)

Lemma totalDuration_snoc (l : list Keyframe) (kf : Keyframe) :
  totalDuration (l ++ [kf]) = totalDuration l + duration kf.
Proof. unfold totalDuration. by rewrite fold_left_app. Qed.

Lemma cumulative_S (keyframes : list Keyframe) (i : nat) (kf : Keyframe) :
  keyframes !! i = Some kf ->
  cumulative keyframes (S i) = cumulative keyframes i + duration kf.
Proof.
  intros Hi. unfold cumulative.
  by rewrite (take_S_r _ _ _ Hi), totalDuration_snoc.
Qed.

Lemma cumulative_all (keyframes : list Keyframe) :
  cumulative keyframes (length keyframes) = totalDuration keyframes.
Proof. unfold cumulative. by rewrite firstn_all. Qed.

Lemma findSegment_from (elapsed : Q) (rest before : list Keyframe) :
  SegmentFound (before ++ rest) elapsed (length before)
    (findSegment elapsed rest (length before) (totalDuration before)).
Proof.
  revert before. induction rest as [|kf rest IH]; intros before; simpl.
  - rewrite app_nil_r. apply segment_fall_through. intros j Hj. lia.
  - assert (Hkf : (before ++ kf :: rest) !! length before = Some kf)
      by apply list_lookup_middle, eq_refl.
    assert (Hhere : cumulative (before ++ kf :: rest) (length before)
                    = totalDuration before)
      by (unfold cumulative; by rewrite take_app_length).
    destruct (Qlt_le_dec elapsed (totalDuration before + duration kf))
      as [Hlt|Hge].
    + rewrite <- Hhere. eapply segment_break; [exact Hkf|lia| |].
      * by rewrite (cumulative_S _ _ _ Hkf), Hhere.
      * intros j Hj. lia.
    + specialize (IH (before ++ [kf])).
      rewrite <- totalDuration_snoc.
      rewrite length_app, Nat.add_1_r, <- app_assoc in IH. simpl in IH.
      inversion IH as [i kf' Hi Hfrom Hlt Hmin Heq | Hall Heq].
      * apply segment_break with (kf := kf'); [done|lia|done|].
        intros j Hj. destruct (decide (j = length before)) as [->|Hne].
        -- by rewrite (cumulative_S _ _ _ Hkf), Hhere.
        -- apply Hmin. lia.
      * apply segment_fall_through.
        intros j Hj. destruct (decide (j = length before)) as [->|Hne].
        -- by rewrite (cumulative_S _ _ _ Hkf), Hhere.
        -- apply Hall. lia.
Qed.

Lemma findSegment_spec (keyframes : list Keyframe) (elapsed : Q) :
  SegmentFound keyframes elapsed 0 (findSegment elapsed keyframes 0 0).
Proof. exact (findSegment_from elapsed keyframes []). Qed.

(** With [0 <= elapsed < totalDuration], the loop breaks at the first
    keyframe whose cumulative duration exceeds [elapsed]; that keyframe's
    duration is positive, whatever the other durations are. *)
Lemma findSegment_in_range (keyframes : list Keyframe) (elapsed : Q) :
  0 <= elapsed -> elapsed < totalDuration keyframes ->
  exists i startFrame,
    findSegment elapsed keyframes 0 0 = (i, cumulative keyframes i)
    /\ keyframes !! i = Some startFrame
    /\ cumulative keyframes i <= elapsed
    /\ elapsed < cumulative keyframes (S i)
    /\ (forall j, (j < i)%nat -> cumulative keyframes (S j) <= elapsed)
    /\ 0 < duration startFrame.
Proof.
  intros Hlo Hhi.
  destruct (findSegment_spec keyframes elapsed) as [i kf Hi _ Hlt Hmin|Hall].
  - assert (Hge : cumulative keyframes i <= elapsed).
    { destruct i as [|i]; [done|]. apply Hmin. lia. }
    exists i, kf. split_and!; try done.
    + intros j Hj. apply Hmin. lia.
    + rewrite (cumulative_S _ _ _ Hi) in Hlt. lra.
  - exfalso. destruct keyframes as [|kf0 rest].
    + unfold totalDuration in Hhi. simpl in Hhi. lra.
    + specialize (Hall (length rest)). rewrite cumulative_all in Hall.
      simpl in Hall. assert (totalDuration (kf0 :: rest) <= elapsed)
        by (apply Hall; lia). lra.
Qed.

Lemma totalDuration_nonneg (keyframes : list Keyframe) :
  Forall (fun kf => 0 < duration kf) keyframes -> 0 <= totalDuration keyframes.
Proof.
  induction keyframes as [|kf l IH] using rev_ind; intros Hpos.
  - unfold totalDuration. simpl. lra.
  - apply Forall_app in Hpos as [Hl Hkf]. apply Forall_inv in Hkf.
    rewrite totalDuration_snoc. specialize (IH Hl). simpl in Hkf. lra.
Qed.

Lemma cumulative_increasing (keyframes : list Keyframe) (j j' : nat) :
  Forall (fun kf => 0 < duration kf) keyframes ->
  (j < j')%nat -> (j' <= length keyframes)%nat ->
  cumulative keyframes j < cumulative keyframes j'.
Proof.
  intros Hpos Hlt. induction Hlt as [|m Hm IH]; intros Hlen.
  - destruct (lookup_lt_is_Some_2 keyframes j) as [kf Hkf]; [lia|].
    rewrite (cumulative_S _ _ _ Hkf).
    pose proof (proj1 (Forall_lookup _ _) Hpos _ _ Hkf) as Hd. simpl in Hd.
    lra.
  - destruct (lookup_lt_is_Some_2 keyframes m) as [kf Hkf]; [lia|].
    rewrite (cumulative_S _ _ _ Hkf).
    pose proof (proj1 (Forall_lookup _ _) Hpos _ _ Hkf) as Hd. simpl in Hd.
    assert (cumulative keyframes j < cumulative keyframes m)
      by (apply IH; lia).
    lra.
Qed.

Lemma totalDuration_pos (keyframes : list Keyframe) :
  keyframes <> [] -> Forall (fun kf => 0 < duration kf) keyframes ->
  0 < totalDuration keyframes.
Proof.
  intros Hne Hpos. rewrite <- cumulative_all.
  change 0 with (cumulative keyframes 0).
  apply cumulative_increasing; [done| |lia].
  destruct keyframes; [done|simpl; lia].
Qed.

(** ** Evaluation at a wrapped time *)

Lemma findSegment_Qeq (elapsed elapsed' : Q) (rest : list Keyframe) (i : nat)
    (acc : Q) :
  elapsed == elapsed' ->
  findSegment elapsed rest i acc = findSegment elapsed' rest i acc.
Proof.
  intros Heq. revert i acc. induction rest as [|kf rest IH]; intros i acc.
  - done.
  - simpl. destruct (Qlt_le_dec elapsed (acc + duration kf)),
             (Qlt_le_dec elapsed' (acc + duration kf)); try lra; [done|].
    apply IH.
Qed.

Lemma lerp_Qeq (a b alpha alpha' : Q) :
  alpha == alpha' -> lerp a b alpha == lerp a b alpha'.
Proof. intros H. unfold lerp. by rewrite H. Qed.

Lemma lerp_zero (a b alpha : Q) : alpha == 0 -> lerp a b alpha == a.
Proof. intros H. unfold lerp. rewrite H. ring. Qed.

Lemma lerpPose_Qeq (startPose endPose : Pose)
    (alpha alpha' : Q) :
  alpha == alpha' ->
  pose_equiv (lerpPose startPose endPose alpha)
             (lerpPose startPose endPose alpha').
Proof.
  intros H key. rewrite !lerpPose_lookup.
  destruct (INITIAL_POSE !! key) as [rest|]; constructor.
  unfold rot_equiv, lerpJoint. simpl. split_and!; by apply lerp_Qeq.
Qed.

(** With factor [0] the interpolated pose is the start pose as the
    interpolation reads it. *)
Lemma lerpPose_zero (startPose endPose : Pose)
    (alpha : Q) :
  alpha == 0 ->
  pose_equiv (lerpPose startPose endPose alpha) (resolvePose startPose).
Proof.
  intros H key. rewrite lerpPose_lookup, resolvePose_lookup.
  destruct (INITIAL_POSE !! key) as [rest|]; constructor.
  unfold rot_equiv, lerpJoint. simpl. split_and!; by apply lerp_zero.
Qed.

(** A pose that defines the joints of [INITIAL_POSE] and no other is read
    as it is. *)
Lemma resolvePose_canonical (p : Pose) :
  dom p = dom INITIAL_POSE -> resolvePose p = p.
Proof.
  intros Hdom. apply map_eq. intros key. rewrite resolvePose_lookup.
  destruct (INITIAL_POSE !! key) as [rest|] eqn:Hrest; simpl.
  - assert (Hin : key ∈ dom p) by (rewrite Hdom; by apply elem_of_dom).
    apply elem_of_dom in Hin as [r Hr]. by rewrite Hr.
  - symmetry. apply not_elem_of_dom. rewrite Hdom. by apply not_elem_of_dom.
Qed.

Lemma poseAt_Qeq (keyframes : list Keyframe) (elapsed elapsed' : Q) :
  elapsed == elapsed' ->
  option_Forall2 pose_equiv (poseAt keyframes elapsed)
                            (poseAt keyframes elapsed').
Proof.
  intros Heq. unfold poseAt.
  rewrite (findSegment_Qeq elapsed elapsed') by done.
  destruct (findSegment elapsed' keyframes 0 0) as [i acc].
  destruct (keyframes !! i) as [startFrame|]; simpl; [|constructor].
  destruct (keyframes !! _) as [endFrame|]; simpl; constructor.
  apply lerpPose_Qeq. by rewrite Heq.
Qed.

Lemma poseAt_in_range (keyframes : list Keyframe) (elapsed : Q) :
  0 <= elapsed -> elapsed < totalDuration keyframes ->
  exists i startFrame endFrame,
    keyframes !! i = Some startFrame
    /\ keyframes !! ((i + 1) mod length keyframes)%nat = Some endFrame
    /\ cumulative keyframes i <= elapsed
    /\ elapsed < cumulative keyframes (S i)
    /\ (forall j, (j < i)%nat -> cumulative keyframes (S j) <= elapsed)
    /\ 0 < duration startFrame
    /\ poseAt keyframes elapsed
       = Some (lerpPose (pose startFrame) (pose endFrame)
                 ((elapsed - cumulative keyframes i) / duration startFrame)).
Proof.
  intros Hlo Hhi.
  destruct (findSegment_in_range keyframes elapsed Hlo Hhi)
    as (i & startFrame & Hfind & Hi & Hge & Hlt & Hmin & Hd).
  assert (Hlen : (i < length keyframes)%nat) by by eapply lookup_lt_Some.
  destruct (lookup_lt_is_Some_2 keyframes ((i + 1) mod length keyframes))
    as [endFrame He]; [apply Nat.mod_upper_bound; lia|].
  exists i, startFrame, endFrame. split_and!; try done.
  unfold poseAt. rewrite Hfind, Hi. simpl. by rewrite He.
Qed.

(** The evaluation never reads a keyframe outside a non-empty timeline,
    whatever the time, the durations and the joints the poses define. *)
Lemma poseAt_is_Some (keyframes : list Keyframe) (elapsed : Q) :
  keyframes <> [] -> is_Some (poseAt keyframes elapsed).
Proof.
  intros Hne. unfold poseAt.
  assert (Hpos : (0 < length keyframes)%nat)
    by (destruct keyframes; [done|simpl; lia]).
  assert (Hidx : exists startFrame,
             keyframes !! (findSegment elapsed keyframes 0 0).1
             = Some startFrame).
  { destruct (findSegment_spec keyframes elapsed) as [i kf Hi _ _ _|_].
    - by exists kf.
    - by apply lookup_lt_is_Some_2. }
  destruct (findSegment elapsed keyframes 0 0) as [i acc].
  destruct Hidx as [startFrame Hi]. simpl in Hi. rewrite Hi. simpl.
  destruct (lookup_lt_is_Some_2 keyframes ((i + 1) mod length keyframes))
    as [endFrame He]; [apply Nat.mod_upper_bound; lia|].
  rewrite He. simpl. by eexists.
Qed.

Lemma evaluate_is_Some (keyframes : list Keyframe) (diff : Q) :
  keyframes <> [] -> is_Some (evaluate keyframes diff).
Proof. apply poseAt_is_Some. Qed.

(** No tick ends in a [TypeError]. *)
Lemma tick_is_Some (now : Q) (w : World) : is_Some (tick now w).
Proof.
  unfold tick, useFrame.
  destruct (negb (isPlaying (app w))
            || (length (keyframes (app w)) <? 2)%nat) eqn:Hguard.
  { simpl. by eexists. }
  apply orb_false_iff in Hguard as [_ Hlen]. apply Nat.ltb_ge in Hlen.
  assert (Hne : keyframes (app w) <> [])
    by (destruct (keyframes (app w)); [simpl in Hlen; lia|done]).
  destruct (isRecording (app w) && _).
  - destruct (lookup_lt_is_Some_2 (keyframes (app w))
                (length (keyframes (app w)) - 1)) as [lastFrame Hl]; [lia|].
    rewrite Hl. simpl. by eexists.
  - destruct (evaluate_is_Some (keyframes (app w))
                (now - startTimeRef (anchored now (refs w))) Hne)
      as [newPose Hp].
    rewrite Hp. simpl. by eexists.
Qed.

(** ** Missing joints *)

Lemma lerpJoint_ext (a a' b b' : Pose) (alpha : Q)
    (key : string) (rest : JointRotation) :
  default rest (a !! key) = default rest (a' !! key) ->
  default rest (b !! key) = default rest (b' !! key) ->
  lerpJoint a b alpha key rest = lerpJoint a' b' alpha key rest.
Proof. unfold lerpJoint. by intros -> ->. Qed.

Lemma default_union_rest (p : Pose) (key : string)
    (rest : JointRotation) :
  INITIAL_POSE !! key = Some rest ->
  default rest ((p ∪ INITIAL_POSE) !! key) = default rest (p !! key).
Proof.
  intros Hrest. rewrite lookup_union.
  destruct (p !! key) as [r|] eqn:Hp; rewrite Hrest; done.
Qed.

(** The interpolation reads a pose as if the rest pose had been laid under
    it. *)
Lemma lerpPose_union_rest (startPose endPose : Pose)
    (alpha : Q) :
  lerpPose startPose endPose alpha
  = lerpPose (startPose ∪ INITIAL_POSE) (endPose ∪ INITIAL_POSE) alpha.
Proof.
  apply map_eq. intros key. rewrite !lerpPose_lookup.
  destruct (INITIAL_POSE !! key) as [rest|] eqn:Hrest; [|done]. simpl.
  f_equal. apply lerpJoint_ext; symmetry; by apply default_union_rest.
Qed.

(** C5, the claim as stated fails for the renderer.  A keyframe whose pose
    has no entry for [upperArmL] is loaded for editing (a click on its
    frame), so the renderer draws that pose: [getRot] yields the zero
    rotation for the joint, while the rest pose turns it by [-0.5] about
    [z]. *)
Lemma getRot_missing_is_zero_not_rest :
  let s := handleLoadPose (pose kfSparse) idleSparse in
  In kfSparse (keyframes idleSparse)
  /\ pose kfSparse !! "upperArmL"%string = None
  /\ INITIAL_POSE !! "upperArmL"%string = Some (mkRot 0 0 (-1#2))
  /\ renderedPose s = pose kfSparse
  /\ getRot (renderedPose s) "upperArmL" = (0, 0, 0)
  /\ ~ ((getRot (renderedPose s) "upperArmL").2 == z (mkRot 0 0 (-1#2))).
Proof.
  split_and!;
    try (lazymatch goal with
         | |- _ = ?rhs => vm_cast_no_check (@eq_refl _ rhs)
         end).
  - by left.
  - intros H. vm_compute in H. discriminate H.
Qed.

(** C5, amended: in the interpolation a joint absent from the start or from
    the end pose is read as its rest rotation of [INITIAL_POSE], so the
    interpolated pose is the one obtained from the two poses completed with
    the rest pose; in the renderer, [getRot] reads an absent joint as the
    zero rotation.  Neither lookup fails, and the evaluation of a non-empty
    timeline returns a pose whatever joints its poses define. *)
Theorem missing_joint_defaults (startPose endPose shown : Pose)
    (alpha : Q) (key : string) (rest : JointRotation) :
  INITIAL_POSE !! key = Some rest ->
  lerpPose startPose endPose alpha !! key
    = Some (lerpJoint startPose endPose alpha key rest)
  /\ (startPose !! key = None ->
      lerpJoint startPose endPose alpha key rest
      = lerpJoint (<[key := rest]> startPose) endPose alpha key rest)
  /\ (endPose !! key = None ->
      lerpJoint startPose endPose alpha key rest
      = lerpJoint startPose (<[key := rest]> endPose) alpha key rest)
  /\ lerpPose startPose endPose alpha
     = lerpPose (startPose ∪ INITIAL_POSE) (endPose ∪ INITIAL_POSE) alpha
  /\ (shown !! key = None -> getRot shown key = (0, 0, 0))
  /\ (forall keyframes diff,
        keyframes <> [] -> is_Some (evaluate keyframes diff)).
Proof.
  intros Hrest. split_and!.
  - by rewrite lerpPose_lookup, Hrest.
  - intros Hs. apply lerpJoint_ext; [|done].
    by rewrite Hs, lookup_insert_eq.
  - intros He. apply lerpJoint_ext; [done|].
    by rewrite He, lookup_insert_eq.
  - apply lerpPose_union_rest.
  - intros Hsh. unfold getRot. by rewrite Hsh.
  - apply evaluate_is_Some.
Qed.

Lemma missing_joint_defaults_witness :
  lerpPose (pose kfSparse) armReset (1#2) !! "upperArmL"%string
    = Some (lerpJoint (pose kfSparse) armReset (1#2) "upperArmL"
              (mkRot 0 0 (-1#2)))
  /\ lerpJoint (pose kfSparse) armReset (1#2) "upperArmL" (mkRot 0 0 (-1#2))
     = lerpJoint INITIAL_POSE armReset (1#2) "upperArmL" (mkRot 0 0 (-1#2))
  /\ getRot (pose kfSparse) "upperArmL" = (0, 0, 0).
Proof.
  pose proof (missing_joint_defaults (pose kfSparse) armReset (pose kfSparse)
                (1#2) "upperArmL" (mkRot 0 0 (-1#2)) eq_refl)
    as (H1 & _ & _ & _ & H5 & _).
  split; [exact H1|]. split; [reflexivity | exact (H5 eq_refl)].
Defined.

(** A tick during plain playback of two keyframes or more hands the
    evaluator's pose for the time since the anchor to [onUpdatePose], and
    makes no other call. *)
Lemma tick_playing (now : Q) (w : World) :
  isPlaying (app w) = true -> isRecording (app w) = false ->
  (2 <= length (keyframes (app w)))%nat ->
  exists newPose,
    evaluate (keyframes (app w))
      (now - startTimeRef (anchored now (refs w))) = Some newPose
    /\ tick now w
       = Some (mkWorld (setPlaybackPose (Some newPose) (app w))
                       (anchored now (refs w)),
               [onUpdatePose newPose]).
Proof.
  intros Hplay Hrec Hlen.
  assert (Hne : keyframes (app w) <> [])
    by (destruct (keyframes (app w)); [simpl in Hlen; lia|done]).
  destruct (evaluate_is_Some (keyframes (app w))
              (now - startTimeRef (anchored now (refs w))) Hne)
    as [newPose Hp].
  exists newPose. split; [done|]. unfold tick, useFrame.
  apply Nat.ltb_ge in Hlen. rewrite Hplay, Hlen, Hrec. simpl.
  rewrite Hp. simpl. unfold resetTimer. simpl.
  by rewrite Bool.eqb_reflx.
Qed.

(** ** The evaluator *)

(** C1, the claim as stated fails at its last part.  The timeline
    [kfSparse; kfA] has two keyframes with positive durations; at [t = 0],
    the start of segment 0, the evaluator returns a pose that has the rest
    rotation for [upperArmL], a joint the start keyframe's pose does not
    define: the result is not the start keyframe's pose. *)
Lemma evaluate_fills_missing_joints :
  let timeline := [kfSparse; kfA] in
  (2 <= length timeline)%nat
  /\ Forall (fun kf => 0 < duration kf) timeline
  /\ jsRem 0 (totalDuration timeline) == cumulative timeline 0
  /\ pose kfSparse !! "upperArmL"%string = None
  /\ exists newPose,
       evaluate timeline 0 = Some newPose
       /\ (exists rot, newPose !! "upperArmL"%string = Some rot
                        /\ rot_equiv rot (mkRot 0 0 (-1#2)))
       /\ newPose <> pose kfSparse
       /\ ~ pose_equiv newPose (pose kfSparse).
Proof.
  intros timeline.
  assert (Hev : evaluate timeline 0
                = Some (lerpPose (pose kfSparse) (pose kfA)
                          ((jsRem 0 (totalDuration timeline) - 0) / 1000)))
    by reflexivity.
  assert (Hnone : pose kfSparse !! "upperArmL"%string = None)
    by reflexivity.
  assert (Harm : lerpPose (pose kfSparse) (pose kfA)
                   ((jsRem 0 (totalDuration timeline) - 0) / 1000)
                 !! "upperArmL"%string
                 = Some (lerpJoint (pose kfSparse) (pose kfA)
                           ((jsRem 0 (totalDuration timeline) - 0) / 1000)
                           "upperArmL" (mkRot 0 0 (-1#2)))).
  { rewrite lerpPose_lookup. reflexivity. }
  split_and!; [simpl; lia|repeat constructor|reflexivity|exact Hnone|].
  eexists. split; [exact Hev|]. split; [|split].
  - eexists. split; [exact Harm|]. by vm_compute.
  - intros Heq. rewrite Heq, Hnone in Harm. discriminate Harm.
  - intros Hequiv. specialize (Hequiv "upperArmL"%string).
    rewrite Harm, Hnone in Hequiv. inversion Hequiv.
Qed.

(** C1, amended: for a timeline of at least two keyframes with positive
    durations and a time [t >= 0], the evaluator wraps [t] into [[0, T)] by
    removing whole periods [T], takes as segment the first keyframe [i]
    whose cumulative duration exceeds the wrapped time, and gives every
    joint of [INITIAL_POSE], on each axis, the value
    [start + (end - start) * alpha] with
    [alpha = (wrapped - cumulative(i-1)) / duration(i)], where [start] and
    [end] are the rotations of keyframe [i] and of keyframe [(i+1) mod n]
    for that joint (the rest rotation when the keyframe's pose omits the
    joint); the result has no other key, and after the last keyframe the
    target is the first one.  When the wrapped time is the start of a
    segment, that segment is the one taken, the factor is [0] and the
    result is the start keyframe's pose with the joints it omits filled
    from [INITIAL_POSE]; it is the start keyframe's pose itself when that
    pose defines exactly the ten joints.  At [t = 0] the segment is that of
    keyframe 0. *)
Theorem evaluate_segment (keyframes : list Keyframe) (t : Q) :
  (2 <= length keyframes)%nat ->
  Forall (fun kf => 0 < duration kf) keyframes ->
  0 <= t ->
  let T := totalDuration keyframes in
  let wrapped := jsRem t T in
  (exists k : Z, (0 <= k)%Z /\ t == inject_Z k * T + wrapped)
  /\ 0 <= wrapped /\ wrapped < T
  /\ exists i startFrame endFrame newPose,
       keyframes !! i = Some startFrame
       /\ keyframes !! ((i + 1) mod length keyframes)%nat = Some endFrame
       /\ cumulative keyframes i <= wrapped
       /\ wrapped < cumulative keyframes (S i)
       /\ (forall j, (j < i)%nat -> cumulative keyframes (S j) <= wrapped)
       /\ cumulative keyframes (S i)
          = cumulative keyframes i + duration startFrame
       /\ (S i = length keyframes -> keyframes !! 0%nat = Some endFrame)
       /\ evaluate keyframes t = Some newPose
       /\ let alpha :=
            (wrapped - cumulative keyframes i) / duration startFrame in
          0 <= alpha /\ alpha < 1
          /\ (forall key rest, INITIAL_POSE !! key = Some rest ->
                let startRot := default rest (pose startFrame !! key) in
                let endRot := default rest (pose endFrame !! key) in
                newPose !! key
                = Some {| x := x startRot + (x endRot - x startRot) * alpha;
                          y := y startRot + (y endRot - y startRot) * alpha;
                          z := z startRot + (z endRot - z startRot) * alpha
                       |})
          /\ (forall key, INITIAL_POSE !! key = None -> newPose !! key = None)
          /\ (forall j, (j < length keyframes)%nat ->
                wrapped == cumulative keyframes j ->
                i = j /\ alpha == 0
                /\ (forall key rest, INITIAL_POSE !! key = Some rest ->
                      exists rot,
                        newPose !! key = Some rot
                        /\ rot_equiv rot
                             (default rest (pose startFrame !! key)))
                /\ pose_equiv newPose (resolvePose (pose startFrame))
                /\ (dom (pose startFrame) = dom INITIAL_POSE ->
                    pose_equiv newPose (pose startFrame)))
          /\ (t == 0 -> i = 0%nat).
Proof.
  intros Hlen Hpos Ht T wrapped.
  assert (Hne : keyframes <> [])
    by (destruct keyframes; [simpl in Hlen; lia|done]).
  assert (HT : 0 < T) by by apply totalDuration_pos.
  destruct (jsRem_periods t T Ht HT) as (Hk & Hsplit & Hlo & Hhi).
  fold wrapped in Hsplit, Hlo, Hhi.
  split; [by exists (Qfloor (t / T))|]. split; [done|]. split; [done|].
  destruct (poseAt_in_range keyframes wrapped Hlo Hhi)
    as (i & startFrame & endFrame & Hi & He & Hge & Hlt & Hmin & Hd & Hpose).
  assert (Hi_lt : (i < length keyframes)%nat) by by eapply lookup_lt_Some.
  pose proof (cumulative_S _ _ _ Hi) as HS.
  exists i, startFrame, endFrame,
    (lerpPose (pose startFrame) (pose endFrame)
       ((wrapped - cumulative keyframes i) / duration startFrame)).
  split_and!; try done.
  { intros Hlast. rewrite <- He. f_equal.
    replace (i + 1)%nat with (length keyframes) by lia.
    symmetry. apply Nat.Div0.mod_same. }
  cbv zeta. split_and!.
  - apply Qle_shift_div_l; [done|]. lra.
  - apply Qlt_shift_div_r; [done|]. rewrite HS in Hlt. lra.
  - intros key rest Hrest. by rewrite lerpPose_lookup, Hrest.
  - intros key Hnone. by rewrite lerpPose_lookup, Hnone.
  - intros j Hj Hbound.
    assert (Hij : i = j).
    { destruct (Nat.lt_trichotomy i j) as [Hlt'|[Heq|Hgt]]; [|done|].
      - assert (cumulative keyframes i < cumulative keyframes (S i))
          by (apply cumulative_increasing; [done|lia|lia]).
        destruct (decide (S i = j)) as [<-|Hne']; [lra|].
        assert (cumulative keyframes (S i) < cumulative keyframes j)
          by (apply cumulative_increasing; [done|lia|lia]).
        lra.
      - assert (cumulative keyframes j < cumulative keyframes (S j))
          by (apply cumulative_increasing; [done|lia|lia]).
        assert (cumulative keyframes (S j) <= wrapped) by by apply Hmin.
        lra. }
    subst j.
    assert (Halpha : (wrapped - cumulative keyframes i) / duration startFrame
                     == 0).
    { rewrite Hbound. unfold Qdiv. ring. }
    split_and!; [done|done| |by apply lerpPose_zero|].
    + intros key rest Hrest. eexists. split.
      * by rewrite lerpPose_lookup, Hrest.
      * unfold rot_equiv, lerpJoint. simpl.
        split_and!; by apply lerp_zero.
    + intros Hdom. rewrite <- (resolvePose_canonical (pose startFrame)) at 2
        by done.
      by apply lerpPose_zero.
  - intros Hzero.
    assert (0 <= inject_Z (Qfloor (t / T)) * T).
    { apply Qmult_le_0_compat; [|lra].
      change 0 with (inject_Z 0). by rewrite <- Zle_Qle. }
    destruct i as [|i]; [done|]. exfalso.
    assert (cumulative keyframes 0 < cumulative keyframes 1)
      by (apply cumulative_increasing; [done|lia|lia]).
    assert (cumulative keyframes 1 <= wrapped) by (apply Hmin; lia).
    change (cumulative keyframes 0) with 0 in *. lra.
Qed.

Lemma evaluate_segment_witness :
  exists newPose,
    evaluate [kfA; kfB] 2500 = Some newPose
    /\ pose_equiv newPose (pose kfB)
    /\ exists alpha,
         0 <= alpha /\ alpha < 1
         /\ newPose !! "upperArmL"%string
            = Some {| x := 0 + (0 - 0) * alpha;
                      y := 0 + (0 - 0) * alpha;
                      z := 0 + ((-1#2) - 0) * alpha |}.
Proof.
  destruct (evaluate_segment [kfA; kfB] 2500)
    as (_ & _ & _ & i & startFrame & endFrame & newPose & Hi & He & _ & _ & _
        & _ & _ & Heval & H0 & H1 & Hlin & _ & Hbound & _).
  - simpl. lia.
  - repeat constructor.
  - unfold Qle. simpl. lia.
  - destruct (Hbound 1%nat) as (Hi1 & _ & _ & _ & Hpose).
    + simpl. lia.
    + reflexivity.
    + subst i. injection Hi as <-. injection He as <-.
      exists newPose. split; [exact Heval|]. split.
      * apply Hpose. unfold kfB, pose, armReset.
        rewrite dom_insert_L. apply subseteq_union_1_L.
        apply singleton_subseteq_l, elem_of_dom. by eexists.
      * eexists. split; [exact H0|]. split; [exact H1|].
        exact (Hlin "upperArmL"%string (mkRot 0 0 (-1#2)) eq_refl).
Defined.

(** C4: for a timeline of at least two keyframes with total duration
    [T > 0], a time [t >= 0] and a natural number [k], the evaluator returns
    a pose at [t] and at [t + k * T], and the two poses are equal. *)
Theorem evaluate_periodic (keyframes : list Keyframe) (t : Q) (k : nat) :
  (2 <= length keyframes)%nat -> 0 < totalDuration keyframes -> 0 <= t ->
  exists p p',
    evaluate keyframes t = Some p
    /\ evaluate keyframes
         (t + inject_Z (Z.of_nat k) * totalDuration keyframes) = Some p'
    /\ pose_equiv p p'.
Proof.
  intros Hlen HT Ht.
  assert (Hne : keyframes <> [])
    by (destruct keyframes; [simpl in Hlen; lia|done]).
  pose proof (jsRem_add_periods t (totalDuration keyframes) (Z.of_nat k)
                Ht HT (Nat2Z.is_nonneg k)) as Hrem.
  pose proof (poseAt_Qeq keyframes _ _ (Qeq_sym _ _ Hrem)) as Hequiv.
  unfold evaluate.
  destruct (poseAt_is_Some keyframes
              (jsRem t (totalDuration keyframes)) Hne) as [p Hp].
  rewrite Hp in Hequiv |- *.
  destruct (poseAt keyframes _) as [p'|].
  - exists p, p'. split_and!; [done|done|].
    inversion Hequiv as [? ? Hpp|]. exact Hpp.
  - inversion Hequiv.
Qed.

Lemma evaluate_periodic_witness :
  exists p p',
    evaluate [kfA; kfB] 400 = Some p
    /\ evaluate [kfA; kfB] (400 + inject_Z (Z.of_nat 2) * 1500) = Some p'
    /\ pose_equiv p p'.
Proof.
  apply (evaluate_periodic [kfA; kfB] 400 2).
  - simpl. lia.
  - reflexivity.
  - unfold Qle. simpl. lia.
Defined.

(** * Further properties of the code *)

(** ** What a tick can do *)

Lemma anchored_paused (now : Q) (r : Refs) :
  pausedTimeRef (anchored now r) = pausedTimeRef r.
Proof. unfold anchored. by destruct (isZero (startTimeRef r)). Qed.

(** The three ways through the callback: the early return of line 85, the
    end of a recorded loop (lines 98-102), an interpolated frame. *)
Lemma tick_cases (now : Q) (w : World) :
  let diff := now - startTimeRef (anchored now (refs w)) in
  (tick now w = Some (w, [])
   /\ (isPlaying (app w) = false \/ (length (keyframes (app w)) < 2)%nat))
  \/ (isPlaying (app w) = true /\ (2 <= length (keyframes (app w)))%nat
      /\ isRecording (app w) = true
      /\ totalDuration (keyframes (app w)) <= diff
      /\ exists lastFrame,
           last (keyframes (app w)) = Some lastFrame
           /\ tick now w
              = Some (mkWorld
                        (handleRecordingLoopEnd
                           (setPlaybackPose (Some (pose lastFrame)) (app w)))
                        (mkRefs 0 (pausedTimeRef (refs w))),
                      [onUpdatePose (pose lastFrame); onLoopEnd]))
  \/ (isPlaying (app w) = true /\ (2 <= length (keyframes (app w)))%nat
      /\ (isRecording (app w) = false
          \/ diff < totalDuration (keyframes (app w)))
      /\ exists newPose,
           evaluate (keyframes (app w)) diff = Some newPose
           /\ tick now w
              = Some (mkWorld (setPlaybackPose (Some newPose) (app w))
                              (anchored now (refs w)),
                      [onUpdatePose newPose])).
Proof.
  intros diff.
  destruct (isPlaying (app w)) eqn:Hplay;
    [|left; split; [by apply tick_returns_early; left | by left]].
  destruct (Nat.lt_ge_cases (length (keyframes (app w))) 2) as [Hlt|Hlen];
    [left; split; [by apply tick_returns_early; right | by right]|].
  right.
  assert (Hne : keyframes (app w) <> [])
    by (destruct (keyframes (app w)); [simpl in Hlen; lia|done]).
  pose proof Hlen as Hlenb. apply Nat.ltb_ge in Hlenb.
  destruct (isRecording (app w)) eqn:Hrec.
  - destruct (Qlt_le_dec diff (totalDuration (keyframes (app w))))
      as [Hbefore|Hpast].
    + right. split_and!; [done|done|by right|].
      destruct (evaluate_is_Some (keyframes (app w)) diff Hne)
        as [newPose Hp].
      exists newPose. split; [done|]. unfold tick, useFrame.
      rewrite Hplay, Hlenb, Hrec. simpl. fold diff.
      assert (Qle_bool (totalDuration (keyframes (app w))) diff = false)
        as ->.
      { apply not_true_is_false. rewrite Qle_bool_iff. lra. }
      rewrite Hp. simpl. unfold resetTimer. simpl.
      by rewrite Bool.eqb_reflx.
    + left. split_and!; try done.
      destruct (lookup_lt_is_Some_2 (keyframes (app w))
                  (Nat.pred (length (keyframes (app w)))))
        as [lastFrame Hl]; [lia|].
      exists lastFrame. rewrite last_lookup. split; [done|].
      destruct (tick_recording_loop_end now w lastFrame Hplay Hrec Hlen)
        as (w' & Htick & _); [by rewrite last_lookup|done|].
      rewrite Htick. unfold tick, useFrame in Htick.
      rewrite Hplay, Hlenb, Hrec in Htick. simpl in Htick.
      fold diff in Htick.
      apply Qle_bool_iff in Hpast. rewrite Hpast in Htick. simpl in Htick.
      replace (length (keyframes (app w)) - 1)%nat
        with (Nat.pred (length (keyframes (app w)))) in Htick by lia.
      rewrite Hl in Htick. simpl in Htick. injection Htick as <-.
      unfold resetTimer. simpl. rewrite Hplay. simpl.
      by rewrite anchored_paused.
  - right. split_and!; [done|done|by left|].
    destruct (tick_playing now w Hplay Hrec Hlen) as (newPose & Hp & Htick).
    by exists newPose.
Qed.

(** ** What every session keeps *)

Lemma canonicalPose_INITIAL_POSE : canonicalPose INITIAL_POSE.
Proof. reflexivity. Qed.

Lemma canonicalPose_insert (p : Pose) (j : string) (rot : JointRotation) :
  canonicalPose p -> j ∈ INITIAL_POSE_keys -> canonicalPose (<[j := rot]> p).
Proof.
  unfold canonicalPose. intros Hp Hj. rewrite dom_insert_L, Hp.
  apply subseteq_union_1_L, singleton_subseteq_l.
  rewrite INITIAL_POSE_dom. by apply elem_of_list_to_set.
Qed.

Lemma canonicalPose_lookup (p : Pose) (j : string) :
  canonicalPose p -> j ∈ INITIAL_POSE_keys -> is_Some (p !! j).
Proof.
  unfold canonicalPose. intros Hp Hj. apply elem_of_dom.
  rewrite Hp, INITIAL_POSE_dom. by apply elem_of_list_to_set.
Qed.

Lemma NoDup_ids_filter (P : Keyframe -> Prop) `{!forall kf, Decision (P kf)}
    (l : list Keyframe) :
  NoDup (id <$> l) -> NoDup (id <$> filter P l).
Proof.
  intros Hnd. eapply sublist_NoDup; [exact Hnd|].
  apply fmap_sublist, sublist_filter.
Qed.

Lemma fmap_id_update (id' : string) (ms : Q) (l : list Keyframe) :
  id <$> ((fun kf => if decide (id kf = id')
                     then {| id := id kf; pose := pose kf; duration := ms |}
                     else kf) <$> l)
  = id <$> l.
Proof.
  rewrite <- list_fmap_compose. apply list_fmap_ext.
  intros _ kf _. simpl. by destruct (decide (id kf = id')).
Qed.

Lemma Invariant_init : Invariant initialWorld.
Proof.
  split; simpl; try done.
  - apply NoDup_nil_2.
Qed.

Lemma Invariant_dispatch (e : UIEvent) (w : World) :
  Invariant w -> offered w (UI e) = true -> Invariant (act (dispatch e) w).
Proof.
  intros [Hcur Hfr Hpb Hsel Hids Hpl Hrec Hanc Hpau] Hoff.
  destruct w as [[cp sj kfs ip ir pp] [start paused]].
  unfold act, dispatch. simpl in *.
  destruct e; simpl in *.
  - (* a joint sphere *)
    apply bool_decide_eq_true in Hoff.
    unfold resetTimer. simpl. rewrite Bool.eqb_reflx.
    split; simpl; try done. by intros j [= <-].
  - (* Reset Joint *)
    destruct sj as [j|]; simpl.
    + unfold handleResetJoint, resetTimer. simpl. rewrite Bool.eqb_reflx.
      split; simpl; try done. apply canonicalPose_insert; [done|].
      by apply Hsel.
    + unfold resetTimer. simpl. rewrite Bool.eqb_reflx. by split.
  - (* Play *)
    destruct ((length kfs <? 1)%nat || ir) eqn:Hdis; simpl.
    + unfold resetTimer. simpl. rewrite Bool.eqb_reflx. by split.
    + apply orb_false_iff in Hdis as [Hlen ->]. apply Nat.ltb_ge in Hlen.
      unfold handlePlayToggle. simpl.
      apply Nat.ltb_ge in Hlen. rewrite Hlen. apply Nat.ltb_ge in Hlen.
      destruct ip; simpl; unfold resetTimer; simpl; by split.
  - (* Add Keyframe *)
    apply bool_decide_eq_true in Hoff.
    destruct ip; simpl; unfold resetTimer; simpl; split; simpl; try done.
    + apply Forall_app. split; [done|]. by apply Forall_singleton.
    + rewrite fmap_app. apply NoDup_app. split_and!; [done| |].
      * intros i Hi Hin. apply list_elem_of_singleton in Hin. by subst.
      * apply NoDup_singleton.
  - (* Export Video *)
    destruct ((length kfs <? 2)%nat || ip) eqn:Hdis; simpl.
    + unfold resetTimer. simpl. rewrite Bool.eqb_reflx. by split.
    + apply orb_false_iff in Hdis as [Hlen ->]. apply Nat.ltb_ge in Hlen.
      unfold handleExportVideo. simpl.
      apply Nat.ltb_ge in Hlen. rewrite Hlen. apply Nat.ltb_ge in Hlen.
      simpl. unfold resetTimer. simpl.
      split; simpl; try done. intros _. lia.
  - (* Clear All *)
    destruct ip; simpl; unfold resetTimer; simpl; split; simpl; try done.
    + apply NoDup_nil_2.
    + apply NoDup_nil_2.
  - (* a duration input *)
    destruct ip; simpl; unfold resetTimer; simpl; split; simpl; try done.
    + apply Forall_fmap. eapply Forall_impl; [exact Hfr|].
      intros kf Hkf. simpl. by destruct (decide (id kf = id')).
    + by rewrite fmap_id_update.
  - (* a delete button *)
    destruct ip; simpl; unfold resetTimer; simpl; split; simpl; try done.
    + apply Forall_forall. intros kf Hkf.
      apply list_elem_of_filter in Hkf as [_ Hkf].
      by apply (proj1 (Forall_forall _ _) Hfr).
    + by apply NoDup_ids_filter.
  - (* a frame of the strip *)
    destruct (kfs !! i) as [kf|] eqn:Hkf; simpl.
    + unfold handleLoadPose. simpl.
      destruct ip; simpl; unfold resetTimer; simpl; split; simpl; try done.
      by apply (proj1 (Forall_lookup _ _) Hfr i kf).
    + unfold resetTimer. simpl. rewrite Bool.eqb_reflx. by split.
Qed.

Lemma Invariant_slide (axis : Axis) (value : Q) (w w' : World) :
  Invariant w -> step (Slide axis value) w = Some w' -> Invariant w'.
Proof.
  intros [Hcur Hfr Hpb Hsel Hids Hpl Hrec Hanc Hpau].
  destruct w as [[cp sj kfs ip ir pp] [start paused]].
  unfold step, handleUpdateJoint. simpl in *.
  destruct sj as [j|]; simpl.
  - destruct ip; simpl.
    + intros [= <-]. unfold resetTimer. simpl. by split.
    + destruct (cp !! j) as [rot|]; simpl; [|done].
      intros [= <-]. unfold resetTimer. simpl. split; simpl; try done.
      apply canonicalPose_insert; [done|]. by apply Hsel.
  - intros [= <-]. unfold resetTimer. simpl. rewrite Bool.eqb_reflx.
    by split.
Qed.

Lemma Invariant_tick (now : Q) (w w' : World) (calls : list Callback) :
  Invariant w -> tick now w = Some (w', calls) -> Invariant w'.
Proof.
  intros Hinv Htick. pose proof Hinv as Hinv0.
  destruct Hinv as [Hcur Hfr Hpb Hsel Hids Hpl Hrec Hanc Hpau].
  destruct (tick_cases now w)
    as [[Hsame _]|[(Hplay & Hlen & Hr & _ & lastFrame & Hlast & Hend)
                  |(Hplay & Hlen & _ & newPose & Hp & Hshow)]].
  - rewrite Hsame in Htick. by injection Htick as <- _.
  - rewrite Hend in Htick. injection Htick as <- _.
    by split.
  - rewrite Hshow in Htick. injection Htick as <- _.
    split; simpl; try done.
    + intros p [= <-]. unfold evaluate, poseAt in Hp.
      destruct (findSegment _ _ _ _) as [i acc].
      destruct (keyframes (app w) !! i) as [startFrame|]; [|done].
      simpl in Hp.
      destruct (keyframes (app w) !! _) as [endFrame|]; [|done].
      simpl in Hp. injection Hp as <-. apply lerpPose_dom.
    + intros Hidle. by rewrite Hidle in Hplay.
    + by rewrite anchored_paused.
Qed.

Lemma Invariant_step (st : Step) (w w' : World) :
  Invariant w -> offered w st = true -> step st w = Some w' -> Invariant w'.
Proof.
  intros Hinv Hoff Hstep. destruct st as [e|axis value|now].
  - injection Hstep as <-. by apply Invariant_dispatch.
  - by eapply Invariant_slide.
  - simpl in Hstep. destruct (tick now w) as [[w1 calls]|] eqn:Htick; [|done].
    injection Hstep as <-. by eapply Invariant_tick.
Qed.

Lemma Reachable_Invariant (w : World) : Reachable w -> Invariant w.
Proof.
  induction 1 as [|st w w' _ IH Hoff Hstep].
  - apply Invariant_init.
  - by eapply Invariant_step.
Qed.

Lemma steps_Reachable (l : list Step) (w w' : World) :
  Reachable w -> steps l w = Some w' -> Reachable w'.
Proof.
  revert w. induction l as [|st later IH]; intros w Hw Hsteps.
  - by injection Hsteps as <-.
  - simpl in Hsteps. destruct (offered w st) eqn:Hoff; [|done].
    destruct (step st w) as [w1|] eqn:Hstep; [|done]. simpl in Hsteps.
    apply (IH w1); [|done]. by eapply reach_step.
Qed.

(** The recording of [ticksBeforeEnd] is a session. *)
Lemma worldBeforeEnd_Reachable : Reachable worldBeforeEnd.
Proof.
  apply (steps_Reachable recordingSession initialWorld); [apply reach_init|].
  vm_cast_no_check (@eq_refl _ (Some worldBeforeEnd)).
Qed.

(** X1: through any session, the pose on stage, the pose of every keyframe
    and the pose handed to the renderer define exactly the ten joints of
    [INITIAL_POSE]; so [getRot] finds every joint it is asked for and never
    falls back to the zero rotation. *)
Theorem reachable_poses_complete (w : World) :
  Reachable w ->
  canonicalPose (currentPose (app w))
  /\ Forall (fun kf => canonicalPose (pose kf)) (keyframes (app w))
  /\ canonicalPose (renderedPose (app w))
  /\ forall key, key ∈ INITIAL_POSE_keys ->
       exists rot, renderedPose (app w) !! key = Some rot
                   /\ getRot (renderedPose (app w)) key = getRotation rot.
Proof.
  intros Hw. destruct (Reachable_Invariant w Hw)
    as [Hcur Hfr Hpb _ _ _ _ _ _].
  assert (Hren : canonicalPose (renderedPose (app w))).
  { unfold renderedPose. destruct (isPlaying (app w)); [|done].
    destruct (playbackPose (app w)) as [p|] eqn:Hp; [by apply Hpb|done]. }
  split_and!; try done.
  intros key Hkey.
  destruct (canonicalPose_lookup _ key Hren Hkey) as [rot Hrot].
  exists rot. split; [done|]. unfold getRot. by rewrite Hrot.
Qed.

Lemma reachable_poses_complete_witness :
  canonicalPose (renderedPose (app worldBeforeEnd))
  /\ exists rot, renderedPose (app worldBeforeEnd) !! "upperArmL"%string
                   = Some rot
                 /\ getRot (renderedPose (app worldBeforeEnd)) "upperArmL"
                    = getRotation rot.
Proof.
  destruct (reachable_poses_complete worldBeforeEnd worldBeforeEnd_Reachable)
    as (_ & _ & Hren & Hget).
  split; [exact Hren|]. apply Hget.
  apply (bool_decide_unpack _). vm_compute. exact I.
Defined.

(** X2: through any session in which every new keyframe gets an id no
    keyframe has, the ids of the timeline stay pairwise distinct. *)
Theorem reachable_ids_unique (w : World) :
  Reachable w -> NoDup (id <$> keyframes (app w)).
Proof. intros Hw. by destruct (Reachable_Invariant w Hw). Qed.

Lemma reachable_ids_unique_witness :
  NoDup (id <$> keyframes (app worldBeforeEnd)).
Proof. exact (reachable_ids_unique worldBeforeEnd worldBeforeEnd_Reachable).
Defined.

(** X3: through any session, playback runs only on a timeline of at least
    one keyframe, and a recording that is playing has at least two: the
    controls never let the timeline shrink under a running playback. *)
Theorem reachable_playing_has_keyframes (w : World) :
  Reachable w -> isPlaying (app w) = true ->
  (1 <= length (keyframes (app w)))%nat
  /\ (isRecording (app w) = true -> (2 <= length (keyframes (app w)))%nat).
Proof.
  intros Hw Hplay. destruct (Reachable_Invariant w Hw)
    as [_ _ _ _ _ Hpl Hrec _ _].
  split; [by apply Hpl | by apply Hrec].
Qed.

Lemma reachable_playing_has_keyframes_witness :
  (2 <= length (keyframes (app worldBeforeEnd)))%nat.
Proof.
  exact (proj2 (reachable_playing_has_keyframes worldBeforeEnd
                  worldBeforeEnd_Reachable eq_refl) eq_refl).
Defined.

(** X4: through any session, [pausedTimeRef] stays [0] and, whenever
    playback is off, the anchor is [0]: no phase is kept across a stop, and
    the first tick of the next playback anchors at its own clock reading. *)
Theorem reachable_anchor_reset (w : World) (now : Q) :
  Reachable w ->
  pausedTimeRef (refs w) = 0
  /\ (isPlaying (app w) = false ->
      startTimeRef (refs w) = 0
      /\ anchored now (refs w) = mkRefs (now - 0) 0).
Proof.
  intros Hw. destruct (Reachable_Invariant w Hw)
    as [_ _ _ _ _ _ _ Hanc Hpau].
  split; [done|]. intros Hidle. specialize (Hanc Hidle).
  split; [done|]. unfold anchored. by rewrite Hanc, Hpau.
Qed.

Lemma reachable_anchor_reset_witness :
  pausedTimeRef (refs worldBeforeEnd) = 0.
Proof.
  exact (proj1 (reachable_anchor_reset worldBeforeEnd 0
                  worldBeforeEnd_Reachable)).
Defined.

(** X5: from any world of a session, every step succeeds: a tick never
    reads a keyframe outside the timeline, and a slider always finds the
    rotation of the selected joint in the pose. *)
Theorem reachable_step_succeeds (w : World) (st : Step) :
  Reachable w -> is_Some (step st w).
Proof.
  intros Hw. destruct (Reachable_Invariant w Hw)
    as [Hcur _ _ Hsel _ _ _ _ _].
  destruct st as [e|axis value|now]; simpl.
  - by eexists.
  - unfold handleUpdateJoint.
    destruct (selectedJoint (app w)) as [j|] eqn:Hj; simpl; [|by eexists].
    destruct (isPlaying (app w)); simpl; [by eexists|].
    destruct (canonicalPose_lookup _ j Hcur (Hsel j eq_refl)) as [rot Hrot].
    rewrite Hrot. simpl. by eexists.
  - destruct (tick_is_Some now w) as [[w' calls] Htick].
    rewrite Htick. simpl. by eexists.
Qed.

Lemma reachable_step_succeeds_witness :
  is_Some (step (Slide AxisZ (1#4)) (actions authoring initialWorld)).
Proof.
  apply reachable_step_succeeds.
  apply (steps_Reachable (UI <$> authoring) initialWorld);
    [apply reach_init|].
  vm_compute. reflexivity.
Defined.

(** ** Clear All *)

(** X6: Clear All pressed during a recording empties the timeline and stops
    playback but leaves the recording flag set.  In the world it leads to the
    Play and Export Video controls are disabled, and no tick calls
    [onLoopEnd]: ticks alone never clear the flag. *)
Theorem clear_all_keeps_recording (w : World) (nows : list Q) :
  isRecording (app w) = true ->
  let w' := act (dispatch ClickClearAll) w in
  isRecording (app w') = true /\ isPlaying (app w') = false
  /\ keyframes (app w') = []
  /\ disabled (app w') ClickPlay = true
  /\ disabled (app w') ClickExportVideo = true
  /\ startTimeRef (refs w') = (if isPlaying (app w) then 0
                               else startTimeRef (refs w))
  /\ run nows w' = Some (w', [])
  /\ (Reachable w -> Reachable w').
Proof.
  intros Hrec w'.
  assert (Happ : app w' = setIsPlaying false (setKeyframes [] (app w)))
    by reflexivity.
  split_and!; try (rewrite Happ; simpl; done).
  - unfold w', act, resetTimer. simpl. by destruct (isPlaying (app w)).
  - apply run_returns_early. by left.
  - intros Hw. by apply (reach_step (UI ClickClearAll) w).
Qed.

Lemma clear_all_keeps_recording_witness :
  let w' := act (dispatch ClickClearAll) worldBeforeEnd in
  Reachable w' /\ isRecording (app w') = true /\ isPlaying (app w') = false.
Proof.
  intros w'.
  destruct (clear_all_keeps_recording worldBeforeEnd [] eq_refl)
    as (H1 & H2 & _ & _ & _ & _ & _ & H8).
  split; [exact (H8 worldBeforeEnd_Reachable)|]. split; [exact H1|exact H2].
Defined.

(** X7: Clear All stops playback without dropping the playback pose.  After
    Clear All, Add Keyframe and Play, playback runs on one keyframe, the pose
    rendered is the playback pose left over from before the Clear All, not
    the pose on stage, and no tick replaces it. *)
Theorem clear_all_leaves_stale_playback_pose
    (s : AppState) (p : Pose) (uuid : string) (r : Refs) (nows : list Q) :
  playbackPose s = Some p -> isRecording s = false ->
  let s' := dispatch ClickPlay
              (dispatch (ClickAddKeyframe uuid) (dispatch ClickClearAll s)) in
  isPlaying s' = true
  /\ keyframes s' = [{| id := uuid; pose := currentPose s; duration := 1000 |}]
  /\ currentPose s' = currentPose s
  /\ renderedPose s' = p
  /\ run nows (mkWorld s' r) = Some (mkWorld s' r, []).
Proof.
  intros Hp Hrec s'.
  assert (Hs' : s' = mkApp (currentPose s) (selectedJoint s)
                       [{| id := uuid; pose := currentPose s;
                           duration := 1000 |}]
                       true false (Some p)).
  { unfold s'. destruct s as [cp sj kfs ip ir pp]. simpl in *.
    by subst. }
  rewrite Hs'. split_and!; try done.
  apply run_returns_early. right. simpl. lia.
Qed.

Lemma clear_all_leaves_stale_playback_pose_witness :
  let s := setPlaybackPose (Some armReset) playingState in
  renderedPose
    (dispatch ClickPlay
       (dispatch (ClickAddKeyframe "c") (dispatch ClickClearAll s)))
  = armReset.
Proof.
  intros s.
  exact (proj1 (proj2 (proj2 (proj2
           (clear_all_leaves_stale_playback_pose s armReset "c"
              (mkRefs 0 0) [] eq_refl eq_refl))))).
Defined.

(** ** The keyframe store, continued *)

Lemma filter_update_same (id' : string) (ms : Q) (l : list Keyframe) :
  filter (fun kf => id kf <> id')
    ((fun kf => if decide (id kf = id')
                then {| id := id kf; pose := pose kf; duration := ms |}
                else kf) <$> l)
  = filter (fun kf => id kf <> id') l.
Proof.
  induction l as [|kf l IH]; [done|]. rewrite fmap_cons.
  destruct (decide (id kf = id')) as [Heq|Hne].
  - rewrite !filter_cons_False by (simpl; intros H; by apply H).
    exact IH.
  - rewrite !filter_cons_True by done. by rewrite IH.
Qed.

(** X8: a keyframe added under an id no keyframe has is removed again by
    [remove] of that id, which gives back the state before the add; the add
    itself lengthens the loop by the default 1000 ms. *)
Theorem add_then_remove (s : AppState) (uuid : string) :
  uuid ∉ id <$> keyframes s ->
  handleDeleteKeyframe uuid (handleAddKeyframe uuid s) = s
  /\ totalDuration (keyframes (handleAddKeyframe uuid s))
     = totalDuration (keyframes s) + 1000.
Proof.
  intros Hfresh. split.
  - unfold handleDeleteKeyframe, handleAddKeyframe. simpl.
    rewrite filter_app, filter_cons_False by (simpl; intros H; by apply H).
    rewrite filter_nil, app_nil_r.
    rewrite filter_keeps_all by by apply others_kept.
    by destruct s.
  - unfold handleAddKeyframe. simpl. apply totalDuration_snoc.
Qed.

Lemma add_then_remove_witness :
  handleDeleteKeyframe "c" (handleAddKeyframe "c" playingState)
  = playingState.
Proof.
  apply (add_then_remove playingState "c").
  apply (bool_decide_unpack _). vm_compute. exact I.
Defined.

(** X9: on one id the last [updateDuration] wins; on two different ids the
    order of two updates does not matter; [remove] of an id gives the same
    timeline whether or not its duration was updated before, and removing
    twice is removing once. *)
Theorem store_operations_compose (s : AppState) (i j : string) (d e : Q) :
  handleUpdateKeyframeDuration i e (handleUpdateKeyframeDuration i d s)
  = handleUpdateKeyframeDuration i e s
  /\ (i <> j ->
      handleUpdateKeyframeDuration i d (handleUpdateKeyframeDuration j e s)
      = handleUpdateKeyframeDuration j e (handleUpdateKeyframeDuration i d s))
  /\ handleDeleteKeyframe i (handleUpdateKeyframeDuration i d s)
     = handleDeleteKeyframe i s
  /\ handleDeleteKeyframe i (handleDeleteKeyframe i s)
     = handleDeleteKeyframe i s.
Proof.
  unfold handleUpdateKeyframeDuration, handleDeleteKeyframe, setKeyframes.
  simpl. split_and!.
  - f_equal. rewrite <- list_fmap_compose. apply list_fmap_ext.
    intros _ kf _. simpl.
    destruct (decide (id kf = i)); simpl;
      destruct (decide (id kf = i)); done.
  - intros Hij. f_equal. rewrite <- !list_fmap_compose. apply list_fmap_ext.
    intros _ kf _. simpl.
    destruct (decide (id kf = j)), (decide (id kf = i)); simpl;
      repeat (destruct (decide _)); congruence.
  - f_equal. apply filter_update_same.
  - f_equal. apply filter_keeps_all. apply Forall_forall.
    intros kf Hkf. by apply list_elem_of_filter in Hkf as [? _].
Qed.

Lemma store_operations_compose_witness :
  handleUpdateKeyframeDuration "a" 250
    (handleUpdateKeyframeDuration "b" 750 playingState)
  = handleUpdateKeyframeDuration "b" 750
      (handleUpdateKeyframeDuration "a" 250 playingState).
Proof.
  apply (proj1 (proj2 (store_operations_compose playingState "a" "b" 250 750))).
  discriminate.
Defined.

(** ** The controls during playback *)

(** X10: while [isPlaying] is set, Clear All is the only control that changes
    the timeline and Reset Joint the only one that changes the pose on
    stage; the sliders, the frames of the strip, Add Keyframe, the duration
    inputs, the delete buttons and Export Video leave the state as it is. *)
Theorem playback_locks_controls (s : AppState) (e : UIEvent) (axis : Axis)
    (value : Q) :
  isPlaying s = true ->
  (e <> ClickClearAll -> keyframes (dispatch e s) = keyframes s)
  /\ (e <> ClickResetJoint -> currentPose (dispatch e s) = currentPose s)
  /\ handleUpdateJoint axis value s = Some s
  /\ match e with
     | ClickJoint _ | ClickResetJoint | ClickPlay | ClickClearAll => True
     | _ => dispatch e s = s
     end.
Proof.
  intros Hplay. split_and!.
  - intros Hne. unfold dispatch.
    destruct e; simpl; rewrite ?Hplay; try done.
    + destruct (negb _); [done|]. unfold handleResetJoint.
      by destruct (selectedJoint s).
    + destruct (_ || _); [done|]. unfold handlePlayToggle.
      destruct (_ <? _)%nat; [done|]. by rewrite Hplay.
    + by rewrite orb_true_r.
    + destruct (negb _); [done|]. destruct (keyframes s !! i); [|done].
      unfold handleLoadPose. by rewrite Hplay.
  - intros Hne. unfold dispatch.
    destruct e; simpl; rewrite ?Hplay; try done.
    + destruct (_ || _); [done|]. unfold handlePlayToggle.
      destruct (_ <? _)%nat; [done|]. by rewrite Hplay.
    + by rewrite orb_true_r.
    + destruct (negb _); [done|]. destruct (keyframes s !! i); [|done].
      unfold handleLoadPose. by rewrite Hplay.
  - unfold handleUpdateJoint. destruct (selectedJoint s); [|done].
    by rewrite Hplay.
  - unfold dispatch. destruct e; simpl; rewrite ?Hplay; try done.
    + by rewrite orb_true_r.
    + destruct (negb _); [done|]. destruct (keyframes s !! i); [|done].
      unfold handleLoadPose. by rewrite Hplay.
Qed.

Lemma playback_locks_controls_witness :
  dispatch (ClickFrame 1) playingState = playingState
  /\ handleUpdateJoint AxisX 1 playingState = Some playingState.
Proof.
  destruct (playback_locks_controls playingState (ClickFrame 1) AxisX 1
              eq_refl) as (_ & _ & Hslide & Hframe).
  split; [exact Hframe | exact Hslide].
Defined.

(** ** Interpolation, continued *)

Lemma lerp_same (a alpha : Q) : lerp a a alpha == a.
Proof. unfold lerp. ring. Qed.

Lemma lerp_one (a b alpha : Q) : alpha == 1 -> lerp a b alpha == b.
Proof. intros H. unfold lerp. rewrite H. ring. Qed.

Lemma lerp_between (a b alpha : Q) :
  0 <= alpha -> alpha <= 1 -> between a b (lerp a b alpha).
Proof.
  intros H0 H1. unfold between, lerp.
  destruct (Qlt_le_dec b a) as [Hba|Hab].
  - right. assert (0 <= (a - b) * alpha)
      by (apply Qmult_le_0_compat; lra).
    assert (0 <= (a - b) * (1 - alpha))
      by (apply Qmult_le_0_compat; lra).
    split; nra.
  - left. assert (0 <= (b - a) * alpha)
      by (apply Qmult_le_0_compat; lra).
    assert (0 <= (b - a) * (1 - alpha))
      by (apply Qmult_le_0_compat; lra).
    split; nra.
Qed.

(** X11: interpolating a pose with itself gives that pose (as the
    interpolation reads it) whatever the factor; between two poses, factor
    [0] gives the start pose and factor [1] the end pose. *)
Theorem lerpPose_endpoints (startPose endPose : Pose) (alpha : Q) :
  pose_equiv (lerpPose startPose startPose alpha) (resolvePose startPose)
  /\ pose_equiv (lerpPose startPose endPose 0) (resolvePose startPose)
  /\ pose_equiv (lerpPose startPose endPose 1) (resolvePose endPose).
Proof.
  split_and!.
  - intros key. rewrite lerpPose_lookup, resolvePose_lookup.
    destruct (INITIAL_POSE !! key) as [rest|]; constructor.
    unfold rot_equiv, lerpJoint. simpl. split_and!; apply lerp_same.
  - by apply lerpPose_zero.
  - intros key. rewrite lerpPose_lookup, resolvePose_lookup.
    destruct (INITIAL_POSE !! key) as [rest|]; constructor.
    unfold rot_equiv, lerpJoint. simpl. split_and!; by apply lerp_one.
Qed.

(** ** The evaluator, continued *)

Lemma jsRem_below (t T : Q) : 0 <= t -> t < T -> jsRem t T == t.
Proof.
  intros Ht HtT. assert (HT : 0 < T) by lra.
  unfold jsRem. rewrite Qtruncate_nonneg by by apply Qdiv_nonneg.
  assert (Hfl : Qfloor (t / T) = 0%Z).
  { apply Qfloor_unique; [by apply Qdiv_nonneg|].
    apply Qlt_shift_div_r; [done|].
    change (inject_Z (0 + 1)) with 1. lra. }
  rewrite Hfl. simpl. ring.
Qed.

Lemma Qtruncate_Qeq (q q' : Q) : q == q' -> Qtruncate q = Qtruncate q'.
Proof.
  intros H. unfold Qtruncate.
  destruct (Qlt_le_dec q 0), (Qlt_le_dec q' 0); try lra.
  - by apply Qceiling_comp.
  - by apply Qfloor_comp.
Qed.

Lemma jsRem_Qeq (a a' b : Q) : a == a' -> jsRem a b == jsRem a' b.
Proof.
  intros H. unfold jsRem.
  assert (Htr : Qtruncate (a / b) = Qtruncate (a' / b))
    by (apply Qtruncate_Qeq; by rewrite H).
  by rewrite Htr, H.
Qed.

(** The segment and the factor of an evaluation, for a positive total
    duration. *)
Lemma evaluate_in_range (keyframes : list Keyframe) (t : Q) :
  0 < totalDuration keyframes -> 0 <= t ->
  exists i startFrame endFrame,
    keyframes !! i = Some startFrame
    /\ keyframes !! ((i + 1) mod length keyframes)%nat = Some endFrame
    /\ findSegment (jsRem t (totalDuration keyframes)) keyframes 0 0
       = (i, cumulative keyframes i)
    /\ cumulative keyframes i <= jsRem t (totalDuration keyframes)
    /\ jsRem t (totalDuration keyframes) < cumulative keyframes (S i)
    /\ (forall j, (j < i)%nat ->
          cumulative keyframes (S j) <= jsRem t (totalDuration keyframes))
    /\ 0 < duration startFrame
    /\ let alpha := (jsRem t (totalDuration keyframes)
                     - cumulative keyframes i) / duration startFrame in
       0 <= alpha /\ alpha < 1
       /\ evaluate keyframes t
          = Some (lerpPose (pose startFrame) (pose endFrame) alpha).
Proof.
  intros HT Ht.
  destruct (jsRem_periods t _ Ht HT) as (_ & _ & Hlo & Hhi).
  destruct (findSegment_in_range keyframes _ Hlo Hhi)
    as (i & startFrame & Hfind & Hi & Hge & Hlt & Hmin & Hd).
  assert (Hlen : (i < length keyframes)%nat) by by eapply lookup_lt_Some.
  destruct (lookup_lt_is_Some_2 keyframes ((i + 1) mod length keyframes))
    as [endFrame He]; [apply Nat.mod_upper_bound; lia|].
  exists i, startFrame, endFrame. split_and!; try done.
  cbv zeta. pose proof (cumulative_S _ _ _ Hi) as HS. split_and!.
  - apply Qle_shift_div_l; [done|]. lra.
  - apply Qlt_shift_div_r; [done|]. rewrite HS in Hlt. lra.
  - unfold evaluate, poseAt. rewrite Hfind, Hi. simpl. by rewrite He.
Qed.

(** X12: for a positive total duration and a time [t >= 0], let [i] be the
    index the segment loop stops at for the wrapped time, the first one
    whose cumulative duration exceeds it.  The evaluator returns a pose in
    which every axis of every joint lies between the value keyframe [i]
    gives that axis and the value keyframe [(i+1) mod n] gives it: the
    interpolation never leaves the range spanned by the start and the end
    keyframe of the segment. *)
Theorem evaluate_between_keyframes (keyframes : list Keyframe) (t : Q) :
  0 < totalDuration keyframes -> 0 <= t ->
  let wrapped := jsRem t (totalDuration keyframes) in
  exists i startFrame endFrame newPose,
    findSegment wrapped keyframes 0 0 = (i, cumulative keyframes i)
    /\ cumulative keyframes i <= wrapped
    /\ wrapped < cumulative keyframes (S i)
    /\ (forall j, (j < i)%nat -> cumulative keyframes (S j) <= wrapped)
    /\ keyframes !! i = Some startFrame
    /\ keyframes !! ((i + 1) mod length keyframes)%nat = Some endFrame
    /\ evaluate keyframes t = Some newPose
    /\ forall key rest, INITIAL_POSE !! key = Some rest ->
         exists rot,
           newPose !! key = Some rot
           /\ rot_between (rotationOf (pose startFrame) key rest)
                          (rotationOf (pose endFrame) key rest) rot.
Proof.
  intros HT Ht wrapped.
  destruct (evaluate_in_range keyframes t HT Ht)
    as (i & startFrame & endFrame & Hi & He & Hfind & Hge & Hlt & Hmin & _
        & H0 & H1 & Hev).
  eexists i, startFrame, endFrame, _.
  split_and!; try done.
  intros key rest Hrest. eexists. split.
  - by rewrite lerpPose_lookup, Hrest.
  - unfold rot_between, lerpJoint, rotationOf. simpl.
    split_and!; apply lerp_between; lra.
Qed.

Lemma evaluate_between_keyframes_witness :
  exists i startFrame endFrame newPose,
    findSegment (jsRem 1400 1500) [kfA; kfB] 0 0
    = (i, cumulative [kfA; kfB] i)
    /\ cumulative [kfA; kfB] i <= jsRem 1400 1500
    /\ jsRem 1400 1500 < cumulative [kfA; kfB] (S i)
    /\ (forall j, (j < i)%nat ->
          cumulative [kfA; kfB] (S j) <= jsRem 1400 1500)
    /\ [kfA; kfB] !! i = Some startFrame
    /\ [kfA; kfB] !! ((i + 1) mod 2)%nat = Some endFrame
    /\ evaluate [kfA; kfB] 1400 = Some newPose
    /\ forall key rest, INITIAL_POSE !! key = Some rest ->
         exists rot,
           newPose !! key = Some rot
           /\ rot_between (rotationOf (pose startFrame) key rest)
                          (rotationOf (pose endFrame) key rest) rot.
Proof.
  apply (evaluate_between_keyframes [kfA; kfB] 1400).
  - reflexivity.
  - unfold Qle. simpl. lia.
Defined.

(** X13: for a positive total duration and a time [t >= 0], the keyframe
    the loop stops at has a positive duration: keyframes whose duration is
    zero or negative are passed over, and the factor is never a quotient by
    zero. *)
Theorem nonpositive_durations_skipped (keyframes : list Keyframe) (t : Q) :
  0 < totalDuration keyframes -> 0 <= t ->
  exists i startFrame,
    findSegment (jsRem t (totalDuration keyframes)) keyframes 0 0
    = (i, cumulative keyframes i)
    /\ keyframes !! i = Some startFrame
    /\ 0 < duration startFrame
    /\ forall j kf, keyframes !! j = Some kf -> duration kf <= 0 -> j <> i.
Proof.
  intros HT Ht.
  destruct (evaluate_in_range keyframes t HT Ht)
    as (i & startFrame & _ & Hi & _ & Hfind & _ & _ & _ & Hd & _).
  exists i, startFrame. split_and!; try done.
  intros j kf Hj Hnonpos ->. rewrite Hi in Hj. injection Hj as <-. lra.
Qed.

Lemma nonpositive_durations_skipped_witness :
  exists i startFrame,
    findSegment (jsRem 100 1500)
      [mkKeyframe "z" INITIAL_POSE 0; kfA; kfB] 0 0
    = (i, cumulative [mkKeyframe "z" INITIAL_POSE 0; kfA; kfB] i)
    /\ [mkKeyframe "z" INITIAL_POSE 0; kfA; kfB] !! i = Some startFrame
    /\ 0 < duration startFrame
    /\ forall j kf,
         [mkKeyframe "z" INITIAL_POSE 0; kfA; kfB] !! j = Some kf ->
         duration kf <= 0 -> j <> i.
Proof.
  apply (nonpositive_durations_skipped
           [mkKeyframe "z" INITIAL_POSE 0; kfA; kfB] 100).
  - reflexivity.
  - unfold Qle. simpl. lia.
Defined.

Lemma evaluate_at_zero (keyframes : list Keyframe) (d : Q) :
  keyframes <> [] -> Forall (fun kf => 0 < duration kf) keyframes ->
  d == 0 ->
  exists p kf0,
    evaluate keyframes d = Some p
    /\ keyframes !! 0%nat = Some kf0
    /\ pose_equiv p (resolvePose (pose kf0)).
Proof.
  intros Hne Hpos Hd.
  pose proof (totalDuration_pos keyframes Hne Hpos) as HT.
  assert (Hd0 : 0 <= d) by lra.
  destruct (evaluate_in_range keyframes d HT Hd0)
    as (i & startFrame & endFrame & Hi & _ & _ & _ & _ & Hmin & Hdur & _ & _
        & Hev).
  assert (Hrem : jsRem d (totalDuration keyframes) == 0).
  { rewrite (jsRem_Qeq d 0) by done. apply jsRem_below; lra. }
  assert (Hlen : (0 < length keyframes)%nat)
    by (destruct keyframes; [done|simpl; lia]).
  assert (Hi0 : i = 0%nat).
  { destruct i as [|i]; [done|]. exfalso.
    assert (cumulative keyframes 0 < cumulative keyframes 1)
      by (apply cumulative_increasing; [done|lia|lia]).
    assert (cumulative keyframes 1
            <= jsRem d (totalDuration keyframes)) by (apply Hmin; lia).
    change (cumulative keyframes 0) with 0 in *. lra. }
  subst i. eexists _, startFrame. split; [exact Hev|]. split; [done|].
  apply lerpPose_zero. change (cumulative keyframes 0) with 0.
  rewrite Hrem. unfold Qdiv. ring.
Qed.

(** ** Runs of ticks *)

Lemma anchored_unset (now : Q) (r : Refs) :
  isZero (startTimeRef r) = true ->
  anchored now r = mkRefs (now - pausedTimeRef r) (pausedTimeRef r).
Proof. intros H. unfold anchored. by rewrite H. Qed.

Lemma anchored_set (now : Q) (r : Refs) :
  isZero (startTimeRef r) = false -> anchored now r = r.
Proof. intros H. unfold anchored. by rewrite H. Qed.

(** X14: a tick that finds playback on, two keyframes or more with positive
    durations and no anchor (as at the start of every playback) anchors at
    its own clock reading and shows the pose of keyframe 0, in a recording as
    well.  If that clock reading is [0] the anchor stays unset, so the next
    tick shows keyframe 0 again. *)
Theorem first_tick_shows_first_keyframe (now : Q) (w : World) :
  isPlaying (app w) = true -> (2 <= length (keyframes (app w)))%nat ->
  Forall (fun kf => 0 < duration kf) (keyframes (app w)) ->
  isZero (startTimeRef (refs w)) = true -> pausedTimeRef (refs w) == 0 ->
  exists p kf0,
    tick now w
    = Some (mkWorld (setPlaybackPose (Some p) (app w))
                    (mkRefs (now - pausedTimeRef (refs w))
                            (pausedTimeRef (refs w))),
            [onUpdatePose p])
    /\ keyframes (app w) !! 0%nat = Some kf0
    /\ pose_equiv p (resolvePose (pose kf0))
    /\ (now == 0 -> isZero (now - pausedTimeRef (refs w)) = true).
Proof.
  intros Hplay Hlen Hpos Hunset Hpaused.
  assert (Hne : keyframes (app w) <> [])
    by (destruct (keyframes (app w)); [simpl in Hlen; lia|done]).
  pose proof (totalDuration_pos _ Hne Hpos) as HT.
  pose proof (anchored_unset now (refs w) Hunset) as Hanch.
  assert (Hdiff : now - startTimeRef (anchored now (refs w)) == 0)
    by (rewrite Hanch; simpl; lra).
  destruct (evaluate_at_zero _ _ Hne Hpos Hdiff) as (p & kf0 & Hev & H0 & Hp).
  exists p, kf0. split_and!; try done.
  - destruct (tick_cases now w)
      as [[_ [Hidle|Hshort]]|[(_ & _ & _ & Hpast & _)
                             |(_ & _ & _ & newPose & Hev' & Htick)]].
    + by rewrite Hidle in Hplay.
    + lia.
    + lra.
    + rewrite Hev in Hev'. injection Hev' as <-. by rewrite Htick, Hanch.
  - intros Hnow. unfold isZero. apply Qeq_bool_iff. lra.
Qed.

Lemma first_tick_shows_first_keyframe_witness :
  exists p kf0,
    tick 100 recordingStart
    = Some (mkWorld (setPlaybackPose (Some p) (app recordingStart))
                    (mkRefs (100 - 0) 0),
            [onUpdatePose p])
    /\ keyframes (app recordingStart) !! 0%nat = Some kf0
    /\ pose_equiv p (resolvePose (pose kf0))
    /\ (100 == 0 -> isZero (100 - 0) = true).
Proof.
  apply (first_tick_shows_first_keyframe 100 recordingStart).
  - reflexivity.
  - simpl. lia.
  - repeat constructor.
  - reflexivity.
  - reflexivity.
Defined.

(** X15: a recording whose total duration is zero or negative (durations
    can be typed into the inputs) ends at its first tick: the callback
    calls [onUpdatePose] with the last keyframe's pose and [onLoopEnd], and
    no interpolated frame is shown. *)
Theorem recording_of_empty_loop_ends_at_once (now : Q) (w : World) :
  isPlaying (app w) = true -> isRecording (app w) = true ->
  (2 <= length (keyframes (app w)))%nat ->
  isZero (startTimeRef (refs w)) = true -> pausedTimeRef (refs w) == 0 ->
  totalDuration (keyframes (app w)) <= 0 ->
  exists lastFrame,
    last (keyframes (app w)) = Some lastFrame
    /\ tick now w
       = Some (mkWorld
                 (handleRecordingLoopEnd
                    (setPlaybackPose (Some (pose lastFrame)) (app w)))
                 (mkRefs 0 (pausedTimeRef (refs w))),
               [onUpdatePose (pose lastFrame); onLoopEnd]).
Proof.
  intros Hplay Hrec Hlen Hunset Hpaused HT.
  pose proof (anchored_unset now (refs w) Hunset) as Hanch.
  assert (Hdiff : now - startTimeRef (anchored now (refs w)) == 0)
    by (rewrite Hanch; simpl; lra).
  destruct (tick_cases now w)
    as [[_ [Hidle|Hshort]]|[(_ & _ & _ & _ & lastFrame & Hlast & Htick)
                           |(_ & _ & [Hnorec|Hbefore] & _)]].
  - by rewrite Hidle in Hplay.
  - lia.
  - by exists lastFrame.
  - by rewrite Hnorec in Hrec.
  - lra.
Qed.

Lemma recording_of_empty_loop_ends_at_once_witness :
  let s := handleUpdateKeyframeDuration "a" 0
             (handleUpdateKeyframeDuration "b" 0 idleTwoFrames) in
  let w := mkWorld (handleExportVideo s).1 (mkRefs 0 0) in
  exists lastFrame,
    last (keyframes (app w)) = Some lastFrame
    /\ tick 100 w
       = Some (mkWorld
                 (handleRecordingLoopEnd
                    (setPlaybackPose (Some (pose lastFrame)) (app w)))
                 (mkRefs 0 0),
               [onUpdatePose (pose lastFrame); onLoopEnd]).
Proof.
  intros s w.
  apply (recording_of_empty_loop_ends_at_once 100 w).
  - reflexivity.
  - reflexivity.
  - simpl. lia.
  - reflexivity.
  - reflexivity.
  - unfold Qle. simpl. lia.
Defined.

Lemma run_playing_anchored (nows : list Q) (w : World) :
  isPlaying (app w) = true -> isRecording (app w) = false ->
  (2 <= length (keyframes (app w)))%nat ->
  isZero (startTimeRef (refs w)) = false ->
  exists w' calls,
    run nows w = Some (w', calls)
    /\ Forall2 (fun now c =>
                  exists p,
                    evaluate (keyframes (app w))
                      (now - startTimeRef (refs w)) = Some p
                    /\ c = onUpdatePose p)
               nows calls
    /\ refs w' = refs w
    /\ keyframes (app w') = keyframes (app w)
    /\ isPlaying (app w') = true /\ isRecording (app w') = false.
Proof.
  revert w. induction nows as [|now later IH]; intros w Hplay Hrec Hlen Hset.
  - exists w, []. by split_and!.
  - destruct (tick_playing now w Hplay Hrec Hlen) as (p & Hp & Htick).
    rewrite (anchored_set now _ Hset) in Hp, Htick.
    destruct (IH (mkWorld (setPlaybackPose (Some p) (app w)) (refs w)))
      as (w' & calls & Hrun & Hcalls & Hrefs & Hkfs & Hplay' & Hrec');
      try done.
    exists w', (onUpdatePose p :: calls). simpl in *.
    rewrite Htick. simpl. rewrite Hrun. simpl. split_and!; try done.
    constructor; [by exists p|done].
Qed.

(** X16: in plain playback of two keyframes or more with a positive total
    duration, once the first tick has set a non-zero anchor and the clock
    readings are not before it, every tick of the run hands [onUpdatePose]
    the evaluator's pose for its clock reading minus that anchor: the anchor
    does not move, the timeline and the flags stay as they are, and what is
    shown depends on the time since the first tick only. *)
Theorem playback_follows_anchor (now0 : Q) (nows : list Q) (w : World) :
  isPlaying (app w) = true -> isRecording (app w) = false ->
  (2 <= length (keyframes (app w)))%nat ->
  0 < totalDuration (keyframes (app w)) ->
  let r0 := anchored now0 (refs w) in
  isZero (startTimeRef r0) = false ->
  Forall (fun now => startTimeRef r0 <= now) (now0 :: nows) ->
  exists w' calls,
    run (now0 :: nows) w = Some (w', calls)
    /\ Forall2 (fun now c =>
                  exists p,
                    evaluate (keyframes (app w))
                      (now - startTimeRef r0) = Some p
                    /\ c = onUpdatePose p)
               (now0 :: nows) calls
    /\ refs w' = r0
    /\ keyframes (app w') = keyframes (app w)
    /\ isPlaying (app w') = true /\ isRecording (app w') = false.
Proof.
  intros Hplay Hrec Hlen _ r0 Hset _.
  destruct (tick_playing now0 w Hplay Hrec Hlen) as (p & Hp & Htick).
  fold r0 in Hp, Htick.
  destruct (run_playing_anchored nows
              (mkWorld (setPlaybackPose (Some p) (app w)) r0))
    as (w' & calls & Hrun & Hcalls & Hrefs & Hkfs & Hplay' & Hrec');
    try done.
  exists w', (onUpdatePose p :: calls). simpl in *.
  rewrite Htick. simpl. rewrite Hrun. simpl. split_and!; try done.
  constructor; [by exists p|done].
Qed.

Lemma playback_follows_anchor_witness :
  let w := act handlePlayToggle (mkWorld idleTwoFrames (mkRefs 0 0)) in
  exists w' calls,
    run [100; 500; 1700] w = Some (w', calls)
    /\ Forall2 (fun now c =>
                  exists p,
                    evaluate (keyframes (app w))
                      (now - startTimeRef (anchored 100 (refs w))) = Some p
                    /\ c = onUpdatePose p)
               [100; 500; 1700] calls
    /\ refs w' = anchored 100 (refs w)
    /\ keyframes (app w') = keyframes (app w)
    /\ isPlaying (app w') = true /\ isRecording (app w') = false.
Proof.
  intros w. apply (playback_follows_anchor 100 [500; 1700] w).
  - reflexivity.
  - reflexivity.
  - simpl. lia.
  - reflexivity.
  - reflexivity.
  - repeat apply Forall_cons_2; try apply Forall_nil_2;
      vm_compute; discriminate.
Defined.

(** X17: in any run of ticks, from any world, [onLoopEnd] is called at most
    once; when it is called the run ends with both flags cleared, no
    playback pose and the anchor reset. *)
Theorem run_at_most_one_loop_end (nows : list Q) (w : World) :
  exists w' calls,
    run nows w = Some (w', calls)
    /\ (length (List.filter isLoopEnd calls) <= 1)%nat
    /\ (existsb isLoopEnd calls = true ->
        isPlaying (app w') = false /\ isRecording (app w') = false
        /\ playbackPose (app w') = None /\ startTimeRef (refs w') = 0).
Proof.
  revert w. induction nows as [|now later IH]; intros w.
  - exists w, []. simpl. split_and!; [done|lia|done].
  - destruct (tick_cases now w)
      as [[Hsame _]|[(_ & _ & _ & _ & lastFrame & _ & Hend)
                    |(_ & _ & _ & newPose & _ & Hshow)]].
    + destruct (IH w) as (w' & calls & Hrun & Hone & Hdone).
      exists w', calls. simpl. rewrite Hsame. simpl. rewrite Hrun. by simpl.
    + eexists _, _. simpl. rewrite Hend. simpl.
      rewrite run_returns_early by by left. simpl.
      split_and!; [done|simpl; lia|done].
    + destruct (IH (mkWorld (setPlaybackPose (Some newPose) (app w))
                            (anchored now (refs w))))
        as (w' & calls & Hrun & Hone & Hdone).
      exists w', (onUpdatePose newPose :: calls). simpl.
      rewrite Hshow. simpl. rewrite Hrun. by simpl.
Qed.

(** X18: during a recording, a tick at a time since the anchor in
    [[0, T)] shows the pose of that very time, with no wrap-around: the
    pose handed to [onUpdatePose] is the one the segment search and the
    interpolation give at the time since the anchor itself. *)
Theorem recording_frames_not_wrapped (now : Q) (w : World) :
  isPlaying (app w) = true -> isRecording (app w) = true ->
  (2 <= length (keyframes (app w)))%nat ->
  let diff := now - startTimeRef (anchored now (refs w)) in
  0 <= diff -> diff < totalDuration (keyframes (app w)) ->
  exists p p',
    tick now w
    = Some (mkWorld (setPlaybackPose (Some p) (app w))
                    (anchored now (refs w)),
            [onUpdatePose p])
    /\ poseAt (keyframes (app w)) diff = Some p'
    /\ pose_equiv p p'.
Proof.
  intros Hplay Hrec Hlen diff Hlo Hhi.
  destruct (tick_cases now w)
    as [[_ [Hidle|Hshort]]|[(_ & _ & _ & Hpast & _)
                           |(_ & _ & _ & p & Hev & Htick)]].
  - by rewrite Hidle in Hplay.
  - lia.
  - fold diff in Hpast. lra.
  - fold diff in Hev. unfold evaluate in Hev.
    pose proof (poseAt_Qeq (keyframes (app w)) _ _
                  (jsRem_below diff _ Hlo Hhi)) as Hequiv.
    rewrite Hev in Hequiv.
    destruct (poseAt (keyframes (app w)) diff) as [p'|];
      [|inversion Hequiv].
    exists p, p'. split_and!; [done|done|].
    inversion Hequiv as [? ? Hpp|]. exact Hpp.
Qed.

Lemma recording_frames_not_wrapped_witness :
  exists p p',
    tick 1599 worldBeforeEnd
    = Some (mkWorld (setPlaybackPose (Some p) (app worldBeforeEnd))
                    (anchored 1599 (refs worldBeforeEnd)),
            [onUpdatePose p])
    /\ poseAt (keyframes (app worldBeforeEnd))
         (1599 - startTimeRef (anchored 1599 (refs worldBeforeEnd)))
       = Some p'
    /\ pose_equiv p p'.
Proof.
  apply (recording_frames_not_wrapped 1599 worldBeforeEnd).
  - reflexivity.
  - reflexivity.
  - vm_compute. lia.
  - vm_compute. discriminate.
  - vm_compute. reflexivity.
Defined.

(** ** Keyframes as stored poses *)

Lemma pose_edit_keeps_timeline (st : Step) (w w' : World) :
  isPoseEdit st = true -> step st w = Some w' ->
  keyframes (app w') = keyframes (app w)
  /\ isPlaying (app w') = isPlaying (app w).
Proof.
  intros Hedit Hstep. destruct st as [[]|axis value|now];
    try discriminate Hedit; simpl in Hstep.
  - by injection Hstep as <-.
  - injection Hstep as <-. unfold act, dispatch. simpl.
    destruct (negb _); [done|]. unfold handleResetJoint.
    by destruct (selectedJoint (app w)).
  - unfold handleUpdateJoint in Hstep.
    destruct (selectedJoint (app w)); simpl in Hstep;
      [|by injection Hstep as <-].
    destruct (isPlaying (app w)) eqn:Hp; simpl in Hstep;
      [by injection Hstep as <-|].
    destruct (currentPose (app w) !! _); simpl in Hstep; [|done].
    by injection Hstep as <-.
Qed.

Lemma pose_edits_keep_timeline (edits : list Step) (w w' : World) :
  Forall (fun st => isPoseEdit st = true) edits -> steps edits w = Some w' ->
  keyframes (app w') = keyframes (app w)
  /\ isPlaying (app w') = isPlaying (app w).
Proof.
  revert w. induction edits as [|st later IH]; intros w Hedits Hsteps.
  - by injection Hsteps as <-.
  - apply Forall_cons in Hedits as [Hst Hlater]. simpl in Hsteps.
    destruct (offered w st); [|done].
    destruct (step st w) as [w1|] eqn:Hstep; [|done]. simpl in Hsteps.
    destruct (pose_edit_keeps_timeline st w w1 Hst Hstep) as [Hk Hp].
    destruct (IH w1 Hlater Hsteps) as [Hk' Hp'].
    split; congruence.
Qed.

(** X19: a keyframe keeps the pose it was added with.  After Add Keyframe,
    any sequence of joint selections, slider changes and joint resets
    leaves the timeline as it is, and a click on the new frame brings the
    pose on stage back to what it was when the keyframe was added. *)
Theorem keyframe_restores_pose (w w1 : World) (uuid : string)
    (edits : list Step) :
  isPlaying (app w) = false ->
  Forall (fun st => isPoseEdit st = true) edits ->
  steps edits (act (dispatch (ClickAddKeyframe uuid)) w) = Some w1 ->
  keyframes (app w1)
  = keyframes (app w)
    ++ [{| id := uuid; pose := currentPose (app w); duration := 1000 |}]
  /\ currentPose
       (app (act (dispatch (ClickFrame (length (keyframes (app w))))) w1))
     = currentPose (app w).
Proof.
  intros Hidle Hedits Hsteps.
  destruct (pose_edits_keep_timeline edits _ w1 Hedits Hsteps) as [Hk Hp].
  assert (Hadd : app (act (dispatch (ClickAddKeyframe uuid)) w)
                 = handleAddKeyframe uuid (app w)).
  { unfold act, dispatch. simpl. by rewrite Hidle. }
  rewrite Hadd in Hk, Hp. simpl in Hk, Hp. split; [done|].
  unfold act, dispatch. simpl. rewrite Hk.
  rewrite list_lookup_middle by done. simpl.
  unfold handleLoadPose. by rewrite Hp, Hidle.
Qed.

Lemma keyframe_restores_pose_witness :
  let w := mkWorld idleOneFrame (mkRefs 0 0) in
  let edits := [UI (ClickJoint "head"); Slide AxisX (1#2);
                UI ClickResetJoint; Slide AxisZ (3#4)] in
  exists w1,
    steps edits (act (dispatch (ClickAddKeyframe "n")) w) = Some w1
    /\ currentPose (app w1) <> currentPose (app w)
    /\ currentPose (app (act (dispatch (ClickFrame 1)) w1))
       = currentPose (app w).
Proof.
  intros w edits.
  destruct (steps edits (act (dispatch (ClickAddKeyframe "n")) w))
    as [w1|] eqn:Hsteps; [|vm_compute in Hsteps; discriminate Hsteps].
  exists w1. split; [reflexivity|]. split.
  - vm_compute in Hsteps. injection Hsteps as <-.
    intros H. apply (f_equal (fun p => p !! "head"%string)) in H.
    vm_compute in H. discriminate H.
  - apply (keyframe_restores_pose w w1 "n" edits eq_refl).
    + repeat constructor.
    + exact Hsteps.
Defined.
